(** * voice-server: the realtime transcription relay of [server/server.js]

    A shallow embedding of the WebSocket part of the server: the registry
    [activeSessions], the per-connection [session] object, and the event
    handlers the server attaches to the client socket and to the
    Speechmatics socket.  Handlers are functions from the state they can
    touch to the new state and the list of effects they cause. *)

From Stdlib Require Import ZArith Ascii String.
From stdpp Require Import gmap strings list fin_maps pretty.

Open Scope string_scope.
Open Scope list_scope.
Open Scope nat_scope.

(** ** The JavaScript values the relay manipulates *)

Module JS.

(** Values: what [JSON.parse] can return, plus [undefined] and the two
    kinds of object that a property read on a plain object literal can
    find on [Object.prototype].  Numbers are kept as integers: the relay
    only copies them or tests them for zero. *)
#[warnings="-register-all"]
Inductive value : Type :=
| VUndefined
| VNull
| VBool (b : bool)
| VNum (n : Z)
| VStr (s : string)
| VArr (items : list value)
| VObj (props : list (string * value))
| VFun (name : string)
| VObjectPrototype.

(** Result of evaluating an expression that may throw. *)
Inductive completion (A : Type) : Type :=
| Normal (a : A)
| Throw (error : string).
Arguments Normal {A} a.
Arguments Throw {A} error.

Definition bind {A B} (m : completion A) (k : A -> completion B) : completion B :=
  match m with
  | Normal a => k a
  | Throw e => Throw e
  end.

(** ToBoolean. *)
Definition truthy (v : value) : bool :=
  match v with
  | VUndefined | VNull => false
  | VBool b => b
  | VNum n => negb (n =? 0)%Z
  | VStr s => negb (String.eqb s "")
  | VArr _ | VObj _ | VFun _ | VObjectPrototype => true
  end.

(** [a || b] *)
Definition or (a b : value) : value := if truthy a then a else b.

(** [v === "lit"] *)
Definition is_str (v : value) (lit : string) : bool :=
  match v with
  | VStr s => String.eqb s lit
  | _ => false
  end.

Fixpoint assoc {A} (k : string) (l : list (string * A)) : option A :=
  match l with
  | [] => None
  | (k', v) :: rest => if String.eqb k k' then Some v else assoc k rest
  end.

(** The properties every plain object inherits from [Object.prototype]. *)
Definition Object_prototype : list (string * value) :=
  [ ("constructor", VFun "Object");
    ("__defineGetter__", VFun "__defineGetter__");
    ("__defineSetter__", VFun "__defineSetter__");
    ("hasOwnProperty", VFun "hasOwnProperty");
    ("__lookupGetter__", VFun "__lookupGetter__");
    ("__lookupSetter__", VFun "__lookupSetter__");
    ("isPrototypeOf", VFun "isPrototypeOf");
    ("propertyIsEnumerable", VFun "propertyIsEnumerable");
    ("toString", VFun "toString");
    ("valueOf", VFun "valueOf");
    ("__proto__", VObjectPrototype);
    ("toLocaleString", VFun "toLocaleString") ].

(** [o[k]] on a plain object with own properties [props]: own properties
    first, then the prototype chain. *)
Definition get_own_or_inherited (props : list (string * value)) (k : string) : value :=
  match assoc k props with
  | Some v => v
  | None => default VUndefined (assoc k Object_prototype)
  end.

(** [v.k] for one of the keys the relay reads from a parsed message
    ([message], [metadata], [transcript], [reason]).  Reading a property
    of [null] or [undefined] throws a TypeError; primitives and arrays
    have none of these keys. *)
Definition get (v : value) (k : string) : completion value :=
  match v with
  | VUndefined | VNull => Throw "TypeError"
  | VObj props => Normal (get_own_or_inherited props k)
  | _ => Normal VUndefined
  end.

(** [v?.k] *)
Definition get_opt (v : value) (k : string) : value :=
  match v with
  | VUndefined | VNull => VUndefined
  | VObj props => get_own_or_inherited props k
  | _ => VUndefined
  end.

(** The object that the text [JSON.stringify({k1: v1, ...})] denotes:
    properties whose value is [undefined] or a function are left out. *)
Definition serializable (v : value) : bool :=
  match v with
  | VUndefined | VFun _ => false
  | _ => true
  end.

Definition JSON_object (fields : list (string * value)) : value :=
  VObj (List.filter (fun kv => serializable (snd kv)) fields).

(** ** Strings *)

(** [s.split(sep)] for a one-character separator. *)
Fixpoint split (sep : ascii) (s : string) : list string :=
  match s with
  | EmptyString => [EmptyString]
  | String c rest =>
      if Ascii.eqb c sep then EmptyString :: split sep rest
      else match split sep rest with
           | [] => [String c EmptyString]
           | piece :: pieces => String c piece :: pieces
           end
  end.

Definition hex_digit (c : ascii) : option nat :=
  let n := nat_of_ascii c in
  if (48 <=? n)%nat && (n <=? 57)%nat then Some (n - 48)
  else if (65 <=? n)%nat && (n <=? 70)%nat then Some (n - 55)
  else if (97 <=? n)%nat && (n <=? 102)%nat then Some (n - 87)
  else None.

(** Percent-decoding of the URL standard: [%XY] with two hex digits is
    one byte, every other byte stands for itself. *)
Fixpoint percent_decode (s : string) : string :=
  match s with
  | EmptyString => EmptyString
  | String c t =>
      if Ascii.eqb c "%" then
        match t with
        | String h (String l rest) =>
            match hex_digit h, hex_digit l with
            | Some a, Some b =>
                String (ascii_of_nat (16 * a + b)) (percent_decode rest)
            | _, _ => String c (percent_decode t)
            end
        | _ => String c (percent_decode t)
        end
      else String c (percent_decode t)
  end.

Fixpoint plus_to_space (s : string) : string :=
  match s with
  | EmptyString => EmptyString
  | String c t => String (if Ascii.eqb c "+" then " "%char else c) (plus_to_space t)
  end.

(** Cut a [name=value] piece at its first [=]. *)
Fixpoint cut_at_equals (s : string) : string * string :=
  match s with
  | EmptyString => (EmptyString, EmptyString)
  | String c t =>
      if Ascii.eqb c "=" then (EmptyString, t)
      else let '(n, v) := cut_at_equals t in (String c n, v)
  end.

Definition form_decode (s : string) : string := percent_decode (plus_to_space s).

(** [new URLSearchParams(init)] for a string [init]: the
    application/x-www-form-urlencoded parser.  Strings are kept as their
    UTF-8 bytes; the parser's lossy UTF-8 decoding only alters byte
    sequences that are not ASCII, which can neither become the name
    [lang] nor a property name of [SUPPORTED_LANGUAGES].  The constructor
    accepts every string: it has no failing case. *)
Definition URLSearchParams (init : string) : completion (list (string * string)) :=
  let init := match init with
              | String c t => if Ascii.eqb c "?" then t else init
              | EmptyString => init
              end in
  Normal (List.map (fun piece =>
                      let '(n, v) := cut_at_equals piece in
                      (form_decode n, form_decode v))
                   (List.filter (fun piece => negb (String.eqb piece ""))
                                (split "&" init))).

(** [params.get(name)]: the first value of that name, or [null]. *)
Definition URLSearchParams_get (params : list (string * string)) (name : string) : value :=
  match assoc name params with
  | Some v => VStr v
  | None => VNull
  end.

End JS.

Import JS.

#[global] Instance completion_bind : MBind completion :=
  fun A B k m => JS.bind m k.

(** ** Constants of the server *)

Definition MAX_CONCURRENT_SESSIONS : nat := 2.

Definition SUPPORTED_LANGUAGES : list (string * value) :=
  [ ("ar", VStr "ar"); ("en", VStr "en"); ("es", VStr "es"); ("fr", VStr "fr");
    ("de", VStr "de"); ("it", VStr "it"); ("pt", VStr "pt"); ("ru", VStr "ru");
    ("zh", VStr "zh"); ("ja", VStr "ja"); ("ko", VStr "ko") ].

(** ** Language selection, the body of the [try] in the connection handler *)

(** [req.url.split("?")[1] || ""] *)
Definition query_of (url : string) : string :=
  match JS.split "?" url with
  | _ :: q :: _ => if String.eqb q "" then "" else q
  | _ => ""
  end.

(** [SUPPORTED_LANGUAGES[langParam] || "ar"] *)
Definition supported_or_default (langParam : string) : value :=
  JS.or (get_own_or_inherited SUPPORTED_LANGUAGES langParam) (VStr "ar").

(** The value assigned to [session.language]; [langParam] is a string,
    the value of the parameter or the literal. *)
Definition parse_language (url : string) : completion value :=
  urlParams ← URLSearchParams (query_of url);
  let langParam := JS.or (URLSearchParams_get urlParams "lang") (VStr "ar") in
  match langParam with
  | VStr key => Normal (supported_or_default key)
  | _ => Normal (VStr "ar")
  end.

(** ** Sockets, sessions and the registry *)

(** [readyState] of a [ws] socket. *)
Inductive ReadyState : Type := CONNECTING | OPEN | CLOSING | CLOSED.

Definition is_OPEN (r : ReadyState) : bool :=
  match r with OPEN => true | _ => false end.

(** What a [message] event hands to its listener: a string or a [Buffer]. *)
Inductive Data : Type :=
| Str (s : string)
| Buf (bytes : string).

Definition is_string (d : Data) : bool := match d with Str _ => true | Buf _ => false end.
Definition Buffer_isBuffer (d : Data) : bool := match d with Buf _ => true | Str _ => false end.

(** The [session] object literal of the connection handler.  The sockets
    are named by the number of the connection; of the Speechmatics socket
    the relay only reads [readyState], so the field holds [None] for [null]
    and the socket's state otherwise.  [pingInterval] tells whether the
    interval timer is still armed. *)
Record Session : Type := mkSession {
  id : string;
  clientWs : nat;
  speechmaticsWs : option ReadyState;
  closed : bool;
  audioReceived : bool;
  pingInterval : bool;
  language : value
}.

Definition set_speechmaticsWs (u : option ReadyState) (s : Session) : Session :=
  mkSession (id s) (clientWs s) u (closed s) (audioReceived s) (pingInterval s) (language s).
Definition set_closed (b : bool) (s : Session) : Session :=
  mkSession (id s) (clientWs s) (speechmaticsWs s) b (audioReceived s) (pingInterval s) (language s).
Definition set_audioReceived (b : bool) (s : Session) : Session :=
  mkSession (id s) (clientWs s) (speechmaticsWs s) (closed s) b (pingInterval s) (language s).
Definition set_pingInterval (b : bool) (s : Session) : Session :=
  mkSession (id s) (clientWs s) (speechmaticsWs s) (closed s) (audioReceived s) b (language s).
Definition set_language (l : value) (s : Session) : Session :=
  mkSession (id s) (clientWs s) (speechmaticsWs s) (closed s) (audioReceived s) (pingInterval s) l.

(** The part of the upgrade request the handler reads. *)
Record Request : Type := mkRequest {
  sec_websocket_key : string;
  url : string
}.

(** What is written to a socket: the text of [JSON.stringify(v)], or a
    client frame passed on as it came. *)
Inductive Payload : Type :=
| Json (v : value)
| Raw (data : Data).

(** The effects of a handler, in the order they happen.  A [send] is
    recorded when the handler calls it; closing a socket, clearing the
    timer and deleting a registry key are recorded when they change
    something ([close()] on a socket that is already closing or closed,
    [clearInterval] on a cleared timer and [delete] of an absent key do
    nothing). *)
Inductive Effect : Type :=
| ClientSend (c : nat) (v : value)
| ClientClose (c : nat)
| ClientPing (c : nat)
| UpstreamSend (c : nat) (p : Payload)
| UpstreamClose (c : nat)
| TimerCleared (c : nat)
| RegistryDelete (key : string).

(** The process state: the [activeSessions] map (each value is a session
    object, named by its connection), the session objects captured by the
    handlers, and the number of connections seen so far. *)
Record World : Type := mkWorld {
  activeSessions : gmap string nat;
  sessions : gmap nat Session;
  connections : nat
}.

Definition init : World := mkWorld ∅ ∅ 0.

(** ** Library operations *)

(** [socket.close()]: starts the closing handshake (or aborts the opening
    one) unless the socket is already closing or closed. *)
Definition ws_close (c : nat) (r : ReadyState) : ReadyState * list Effect :=
  match r with
  | CONNECTING | OPEN => (CLOSING, [UpstreamClose c])
  | CLOSING => (CLOSING, [])
  | CLOSED => (CLOSED, [])
  end.

(** [clearInterval(session.pingInterval)] *)
Definition clearInterval (s : Session) : Session * list Effect :=
  (set_pingInterval false s, if pingInterval s then [TimerCleared (clientWs s)] else []).

(** [activeSessions.delete(key)] *)
Definition Map_delete (key : string) (m : gmap string nat) : gmap string nat * list Effect :=
  (delete key m, if m !! key is Some _ then [RegistryDelete key] else []).

(** ** The handlers *)

(** Two operations of the runtime are left open: [JSON.parse] on a text
    ([None] when it throws) and the text of a [Buffer]. *)
Class Runtime : Type := {
  JSON_parse : string → option value;
  Buffer_toString : string → string
}.

Section Handlers.

Context {runtime : Runtime}.

(** [data.toString()] *)
Definition toString (d : Data) : string :=
  match d with
  | Str s => s
  | Buf b => Buffer_toString b
  end.

Definition audioFormats : list value :=
  [ VObj [("type", VStr "raw"); ("sample_rate", VNum 16000); ("encoding", VStr "pcm_s16le")];
    VObj [("type", VStr "raw"); ("sample_rate", VNum 16000); ("encoding", VStr "pcm_f32le")] ].

Definition selectedFormat : value := List.nth 0 audioFormats VUndefined.

(** [speechmaticsWs.on("open")] *)
Definition speechmatics_on_open (s : Session) : Session * list Effect :=
  (s,
   [ UpstreamSend (clientWs s)
       (Json (JSON_object
          [ ("message", VStr "StartRecognition");
            ("transcription_config",
              JSON_object
                [ ("language", language s);
                  ("diarization", VStr "none");
                  ("operating_point", VStr "enhanced");
                  ("max_delay_mode", VStr "flexible");
                  ("max_delay", VNum 1);
                  ("enable_partials", VBool true);
                  ("enable_entities", VBool true) ]);
            ("audio_format", selectedFormat) ]));
     ClientSend (clientWs s)
       (JSON_object
          [ ("type", VStr "ready");
            ("message", VStr "Ready to receive audio");
            ("audio_format", selectedFormat) ]) ]).

(** The branches of [speechmaticsWs.on("message")] once [msg.message]
    has been read. *)
Definition dispatch_message (msg kind : value) (s : Session) : Session * list Effect :=
  if is_str kind "RecognitionStarted" then
    (s, [ClientSend (clientWs s)
           (JSON_object [ ("type", VStr "recognition_started");
                          ("message", VStr "Speech recognition active") ])])
  else if is_str kind "AddPartialTranscript" || is_str kind "AddTranscript" then
    let transcript := JS.or (get_opt (get_opt msg "metadata") "transcript") (VStr "") in
    (s, [ClientSend (clientWs s)
           (JSON_object [ ("type", VStr (if is_str kind "AddTranscript" then "final" else "partial"));
                          ("transcript", transcript) ])])
  else if is_str kind "AudioAdded" then
    if negb (audioReceived s) then (set_audioReceived true s, []) else (s, [])
  else if is_str kind "Error" then
    (s, [ClientSend (clientWs s)
           (JSON_object [ ("type", VStr "error");
                          ("message", JS.or (get_opt msg "reason") (VStr "Speechmatics error"));
                          ("details", msg) ])])
  else if is_str kind "Warning" then
    (s, [ClientSend (clientWs s)
           (JSON_object [ ("type", VStr "warning");
                          ("message", JS.or (get_opt msg "reason") (VStr "Speechmatics warning")) ])])
  else (s, []).

(** [speechmaticsWs.on("message")]: the [try] catches both a text that
    is not JSON and the TypeError of reading [message] off [null]. *)
Definition speechmatics_on_message (data : Data) (s : Session) : Session * list Effect :=
  if closed s then (s, [])
  else
    match JSON_parse (toString data) with
    | None => (s, [])
    | Some msg =>
        match JS.get msg "message" with
        | Throw _ => (s, [])
        | Normal kind => dispatch_message msg kind s
        end
    end.

(** [speechmaticsWs.on("close")]; [reason] is [None] when the library
    passes [undefined]. *)
Definition speechmatics_on_close (code : Z) (reason : option Data) (s : Session)
  : Session * list Effect :=
  if negb (closed s) then
    (s, [ClientSend (clientWs s)
           (JSON_object [ ("type", VStr "speechmatics_disconnected");
                          ("message", VStr "Speechmatics connection closed");
                          ("code", VNum code);
                          ("reason", match reason with
                                     | Some r => VStr (toString r)
                                     | None => VUndefined
                                     end) ])])
  else (s, []).

(** [speechmaticsWs.on("error")]; [message] is [err.message]. *)
Definition speechmatics_on_error (message : string) (s : Session) : Session * list Effect :=
  if negb (closed s) then
    (s, [ClientSend (clientWs s)
           (JSON_object [ ("type", VStr "error");
                          ("message", VStr "Speechmatics connection error");
                          ("details", VStr message) ])])
  else (s, []).

(** [setupSpeechmatics]: [ctor] is the outcome of [new WebSocket(...)],
    [Throw m] for an exception whose [message] is [m].  The listeners on
    the new socket are attached only when the constructor returned. *)
Definition setupSpeechmatics (ctor : completion unit) (s : Session) : Session * list Effect :=
  match ctor with
  | Normal _ => (set_speechmaticsWs (Some CONNECTING) s, [])
  | Throw m =>
      (s, [ClientSend (clientWs s)
             (JSON_object [ ("type", VStr "error");
                            ("message", VStr "Failed to setup Speechmatics connection");
                            ("details", VStr m) ])])
  end.

(** [clientWs.on("message")] *)
Definition client_on_message (data : Data) (s : Session) : Session * list Effect :=
  if closed s then (s, [])
  else
    let parsed :=
      if is_string data || Buffer_isBuffer data then JSON_parse (toString data)
      else None in
    match parsed with
    | Some _ => (s, [])
    | None =>
        if default false (is_OPEN <$> speechmaticsWs s)
        then (s, [UpstreamSend (clientWs s) (Raw data)])
        else (s, [])
    end.

(** Whether a client frame is passed on. *)
Definition forwarded (data : Data) (s : Session) : bool :=
  match (client_on_message data s).2 with
  | [] => false
  | _ :: _ => true
  end.

(** Whether an upstream message is the acknowledgement [AudioAdded]. *)
Definition acknowledges_audio (data : Data) : bool :=
  match JSON_parse (toString data) with
  | Some msg =>
      match JS.get msg "message" with
      | Normal kind => is_str kind "AudioAdded"
      | Throw _ => false
      end
  | None => false
  end.

Definition EndOfStream : Payload := Json (JSON_object [("message", VStr "EndOfStream")]).

(** [clientWs.on("close")] *)
Definition client_on_close (s : Session) (registry : gmap string nat)
  : Session * gmap string nat * list Effect :=
  let s := set_closed true s in
  let '(s, e_timer) := clearInterval s in
  let '(s, e_upstream) :=
    match speechmaticsWs s with
    | Some r =>
        let e_end := if is_OPEN r then [UpstreamSend (clientWs s) EndOfStream] else [] in
        let '(r', e_close) := ws_close (clientWs s) r in
        (set_speechmaticsWs (Some r') s, e_end ++ e_close)
    | None => (s, [])
    end in
  let '(registry, e_delete) := Map_delete (id s) registry in
  (s, registry, e_timer ++ e_upstream ++ e_delete).

(** [clientWs.on("error")] *)
Definition client_on_error (s : Session) (registry : gmap string nat)
  : Session * gmap string nat * list Effect :=
  let s := set_closed true s in
  let '(s, e_timer) := clearInterval s in
  let '(s, e_upstream) :=
    match speechmaticsWs s with
    | Some r =>
        let '(r', e_close) := ws_close (clientWs s) r in
        (set_speechmaticsWs (Some r') s, e_close)
    | None => (s, [])
    end in
  let '(registry, e_delete) := Map_delete (id s) registry in
  (s, registry, e_timer ++ e_upstream ++ e_delete).

(** The callback of [setInterval]; [state] is [clientWs.readyState]. *)
Definition ping (state : ReadyState) (s : Session) : Session * list Effect :=
  if negb (closed s) && is_OPEN state then (s, [ClientPing (clientWs s)]) else (s, []).

Definition capacity_error : value :=
  JSON_object [ ("type", VStr "error");
                ("message", VStr "Server at capacity. Please try again later.") ].

(** [wss.on("connection")]: the new client socket is connection number
    [connections w]. *)
Definition on_connection (req : Request) (ctor : completion unit) (w : World)
  : World * list Effect :=
  let socket := connections w in
  let sessionId := sec_websocket_key req in
  if (MAX_CONCURRENT_SESSIONS <=? size (activeSessions w))%nat then
    (mkWorld (activeSessions w) (sessions w) (S socket),
     [ClientSend socket capacity_error; ClientClose socket])
  else
    let session := mkSession sessionId socket None false false true VUndefined in
    let session :=
      match parse_language (url req) with
      | Normal l => set_language l session
      | Throw _ => session
      end in
    let registry := <[sessionId := socket]> (activeSessions w) in
    let '(session, effects) := setupSpeechmatics ctor session in
    (mkWorld registry (<[socket := session]> (sessions w)) (S socket), effects).

(** ** The event loop *)

(** One event per listener call.  Events of the Speechmatics socket carry
    what the library passes to the listener. *)
Inductive Event : Type :=
| Connection (req : Request) (ctor : completion unit)
| ClientMessage (c : nat) (data : Data)
| ClientClosed (c : nat)
| ClientError (c : nat)
| PingTick (c : nat) (state : ReadyState)
| UpstreamOpen (c : nat)
| UpstreamMessage (c : nat) (data : Data)
| UpstreamClosed (c : nat) (code : Z) (reason : option Data)
| UpstreamError (c : nat) (message : string).

Definition store (c : nat) (s : Session) (w : World) : World :=
  mkWorld (activeSessions w) (<[c := s]> (sessions w)) (connections w).

(** Run a listener of connection [c] on its session object; a connection
    that was turned away has no listeners. *)
Definition on_session (c : nat) (w : World) (h : Session -> Session * list Effect)
  : World * list Effect :=
  match sessions w !! c with
  | Some s => let '(s', effects) := h s in (store c s' w, effects)
  | None => (w, [])
  end.

(** Run a listener of the Speechmatics socket of connection [c]: there
    is none when the socket was never constructed; the library emits the
    event only in a state [allowed], and has moved the socket to state
    [after r] by the time the listener runs (OPEN on [open], CLOSED on
    [close], CLOSING on [error]). *)
Definition on_upstream (c : nat) (w : World)
    (allowed : ReadyState -> bool) (after : ReadyState -> ReadyState)
    (h : Session -> Session * list Effect)
  : World * list Effect :=
  on_session c w (fun s =>
    match speechmaticsWs s with
    | Some r => if allowed r then h (set_speechmaticsWs (Some (after r)) s) else (s, [])
    | None => (s, [])
    end).

Definition step (e : Event) (w : World) : World * list Effect :=
  match e with
  | Connection req ctor => on_connection req ctor w
  | ClientMessage c data => on_session c w (client_on_message data)
  | ClientClosed c =>
      match sessions w !! c with
      | Some s =>
          let '(s', registry, effects) := client_on_close s (activeSessions w) in
          (mkWorld registry (<[c := s']> (sessions w)) (connections w), effects)
      | None => (w, [])
      end
  | ClientError c =>
      match sessions w !! c with
      | Some s =>
          let '(s', registry, effects) := client_on_error s (activeSessions w) in
          (mkWorld registry (<[c := s']> (sessions w)) (connections w), effects)
      | None => (w, [])
      end
  | PingTick c state =>
      on_session c w (fun s => if pingInterval s then ping state s else (s, []))
  | UpstreamOpen c =>
      on_upstream c w (fun r => match r with CONNECTING => true | _ => false end)
                  (fun _ => OPEN) speechmatics_on_open
  | UpstreamMessage c data =>
      on_upstream c w (fun r => match r with OPEN | CLOSING => true | _ => false end)
                  (fun r => r) (speechmatics_on_message data)
  | UpstreamClosed c code reason =>
      on_upstream c w (fun r => match r with CLOSED => false | _ => true end)
                  (fun _ => CLOSED) (speechmatics_on_close code reason)
  | UpstreamError c message =>
      on_upstream c w (fun r => match r with CLOSED => false | _ => true end)
                  (fun _ => CLOSING) (speechmatics_on_error message)
  end.

(** A run of events from [w]: the last state and all effects in order. *)
Fixpoint run (events : list Event) (w : World) : World * list Effect :=
  match events with
  | [] => (w, [])
  | e :: rest =>
      let '(w1, effects1) := step e w in
      let '(w2, effects2) := run rest w1 in
      (w2, effects1 ++ effects2)
  end.

Inductive reachable : World -> Prop :=
| reachable_init : reachable init
| reachable_step e w : reachable w -> reachable (step e w).1.

End Handlers.

(** ** Vocabulary of the properties *)

Definition well_formed (w : World) : Prop :=
  ∀ c s, sessions w !! c = Some s → c < connections w ∧ clientWs s = c.

(** What the listeners may change in a session object. *)
Definition evolves (s s' : Session) : Prop :=
  id s' = id s ∧ clientWs s' = clientWs s ∧ language s' = language s ∧
  (closed s = true → closed s' = true) ∧
  (speechmaticsWs s = None → speechmaticsWs s' = None).

Definition is_TimerCleared (e : Effect) : bool :=
  match e with TimerCleared _ => true | _ => false end.

Definition is_RegistryDelete (key : string) (e : Effect) : bool :=
  match e with RegistryDelete k => String.eqb k key | _ => false end.

Definition count (p : Effect → bool) (effects : list Effect) : nat :=
  length (List.filter p effects).

(** The two ways the client side ends a session. *)
Definition teardown (by_error : bool) (c : nat) : Event :=
  if by_error then ClientError c else ClientClosed c.

(** ** Vocabulary for the reachable states *)

(** The connection whose socket or timer an effect touches. *)
Definition effect_connection (e : Effect) : option nat :=
  match e with
  | ClientSend c _ | ClientClose c | ClientPing c
  | UpstreamSend c _ | UpstreamClose c | TimerCleared c => Some c
  | RegistryDelete _ => None
  end.

(** The connection whose listener an event calls. *)
Definition target (e : Event) : option nat :=
  match e with
  | Connection _ _ => None
  | ClientMessage c _ | ClientClosed c | ClientError c | PingTick c _
  | UpstreamOpen c | UpstreamMessage c _ | UpstreamClosed c _ _ | UpstreamError c _ => Some c
  end.

Definition is_teardown (e : Event) : bool :=
  match e with ClientClosed _ | ClientError _ => true | _ => false end.

(** A session object is coherent when its timer is armed exactly as long
    as it is not closed, and a closed session has no Speechmatics socket
    that is connecting or open. *)
Definition coherent (s : Session) : Prop :=
  pingInterval s = negb (closed s) ∧
  (closed s = true → speechmaticsWs s ≠ Some OPEN ∧ speechmaticsWs s ≠ Some CONNECTING).

(** What holds of every state the server can be in. *)
Definition sound (w : World) : Prop :=
  well_formed w ∧
  (∀ c s, sessions w !! c = Some s → coherent s) ∧
  (∀ k c, activeSessions w !! k = Some c →
     ∃ s, sessions w !! c = Some s ∧ id s = k ∧ closed s = false).

(** The message kinds [speechmaticsWs.on("message")] has a branch for. *)
Definition handled_kinds : list string :=
  [ "RecognitionStarted"; "AddPartialTranscript"; "AddTranscript";
    "AudioAdded"; "Error"; "Warning" ].

Section Dispatch.

Context {runtime : Runtime}.

(** What the listener called by [e] does to the session it belongs to
    and to the registry. *)
Definition handle (e : Event) (s : Session) (registry : gmap string nat)
  : Session * gmap string nat * list Effect :=
  let gate (allowed : ReadyState → bool) (after : ReadyState → ReadyState)
           (h : Session → Session * list Effect) :=
    match speechmaticsWs s with
    | Some r => if allowed r then h (set_speechmaticsWs (Some (after r)) s) else (s, [])
    | None => (s, [])
    end in
  let keep (r : Session * list Effect) := (r.1, registry, r.2) in
  match e with
  | Connection _ _ => (s, registry, [])
  | ClientMessage _ data => keep (client_on_message data s)
  | ClientClosed _ => client_on_close s registry
  | ClientError _ => client_on_error s registry
  | PingTick _ state => keep (if pingInterval s then ping state s else (s, []))
  | UpstreamOpen _ =>
      keep (gate (fun r => match r with CONNECTING => true | _ => false end)
                 (fun _ => OPEN) speechmatics_on_open)
  | UpstreamMessage _ data =>
      keep (gate (fun r => match r with OPEN | CLOSING => true | _ => false end)
                 (fun r => r) (speechmatics_on_message data))
  | UpstreamClosed _ code reason =>
      keep (gate (fun r => match r with CLOSED => false | _ => true end)
                 (fun _ => CLOSED) (speechmatics_on_close code reason))
  | UpstreamError _ message =>
      keep (gate (fun r => match r with CLOSED => false | _ => true end)
                 (fun _ => CLOSING) (speechmatics_on_error message))
  end.

End Dispatch.

(** ** The batch endpoint [POST /api/transcribe] *)

(** The message of [new Error(v)]: the string of [v].  Integers print in
    decimal, an array as its items joined by commas, any other object
    as [[object Object]]. *)
Fixpoint Error_message (v : value) : string :=
  match v with
  | VUndefined => "undefined"
  | VNull => "null"
  | VBool b => if b then "true" else "false"
  | VNum n => pretty n
  | VStr s => s
  | VArr items =>
      (fix join (l : list value) : string :=
         match l with
         | [] => EmptyString
         | x :: rest =>
             let item := match x with
                         | VUndefined | VNull => EmptyString
                         | _ => Error_message x
                         end in
             match rest with
             | [] => item
             | _ :: _ => String.append item (String.append "," (join rest))
             end
         end) items
  | VObj _ | VObjectPrototype => "[object Object]"
  | VFun name => String.append "function " (String.append name "() { [native code] }")
  end.

(** An error caught by the handler: its [message], and the [status] and
    [data] of its [response] when it is an HTTP error of axios. *)
Record Failure : Type := mkFailure {
  message : string;
  response : option (value * value)
}.

(** [new Error(message)] *)
Definition new_Error (message : string) : Failure := mkFailure message None.

(** What the upstream answers to one round of the polling loop: the body
    of [GET /jobs/:id], and the body of [GET /jobs/:id/transcript], which
    is asked for only when the job is done; [Throw m] is a rejected
    request whose error has message [m]. *)
Record Poll : Type := mkPoll {
  status_reply : completion value;
  transcript_reply : completion value
}.

(** What the handler does to the outside, in order. *)
Inductive Call : Type :=
| PostJob (config : value)
| Sleep (ms : Z)
| GetStatus
| GetTranscript.

Definition maxAttempts : nat := 30.
Definition baseDelay : Z := 3000.

(** [Math.min(baseDelay * Math.pow(2, attempts), 30000)] *)
Definition delay (attempts : nat) : Z :=
  Z.min (baseDelay * 2 ^ Z.of_nat attempts) 30000.

(** How one round of the loop ends: [break] with the transcript, the next
    round, or an exception that leaves the loop. *)
Inductive Flow : Type :=
| Break (transcript : value)
| Next
| Raise (error : Failure).

(** The [catch] inside the loop. *)
Definition on_poll_error (attempts : nat) (error_message : string) : Flow :=
  if attempts =? maxAttempts - 1
  then Raise (new_Error (String.append "Failed to get job status: " error_message))
  else Next.

(** One round of the [while] loop. *)
Definition poll_once (attempts : nat) (p : Poll) : Flow * list Call :=
  match status_reply p with
  | Throw m => (on_poll_error attempts m, [Sleep (delay attempts); GetStatus])
  | Normal data =>
      let jobStatus := get_opt (get_opt data "job") "status" in
      if is_str jobStatus "done" then
        match transcript_reply p with
        | Normal transcript =>
            (Break transcript, [Sleep (delay attempts); GetStatus; GetTranscript])
        | Throw m =>
            (on_poll_error attempts m, [Sleep (delay attempts); GetStatus; GetTranscript])
        end
      else if is_str jobStatus "failed" then
        let errorDetail := JS.or (get_opt data "detail") (VStr "Transcription failed") in
        (on_poll_error attempts (Error_message errorDetail),
         [Sleep (delay attempts); GetStatus])
      else (Next, [Sleep (delay attempts); GetStatus])
  end.

(** [while (attempts < maxAttempts)], with [remaining = maxAttempts -
    attempts]; the result is the value of [transcript] after the loop. *)
Fixpoint poll_loop (remaining attempts : nat) (replies : nat → Poll) (transcript : value)
  : (Failure + value) * list Call :=
  match remaining with
  | 0 => (inr transcript, [])
  | S remaining' =>
      let '(flow, calls) := poll_once attempts (replies attempts) in
      match flow with
      | Break t => (inr t, calls)
      | Raise error => (inl error, calls)
      | Next =>
          let '(result, calls') := poll_loop remaining' (S attempts) replies transcript in
          (result, calls ++ calls')
      end
  end.

(** The loop and the test [if (!transcript)] after it. *)
Definition poll_job (replies : nat → Poll) : (Failure + value) * list Call :=
  let '(result, calls) := poll_loop maxAttempts 0 replies VUndefined in
  match result with
  | inr transcript =>
      if negb (truthy transcript)
      then (inl (new_Error "Failed to get transcript (timed out)"), calls)
      else (inr transcript, calls)
  | inl error => (inl error, calls)
  end.

Record Response : Type := mkResponse {
  status : value;
  body : value
}.

(** The outer [catch]. *)
Definition error_response (error : Failure) : Response :=
  let response_status := from_option fst VUndefined (response error) in
  let response_data := from_option snd VUndefined (response error) in
  mkResponse (JS.or response_status (VNum 500))
             (JSON_object [ ("error", VStr (message error));
                            ("details", JS.or response_data VNull) ]).

(** The [config] part of the form. *)
Definition job_config (language : value) : value :=
  JSON_object
    [ ("type", VStr "transcription");
      ("transcription_config",
        JSON_object [ ("language", JS.or language (VStr "ar"));
                      ("operating_point", VStr "enhanced");
                      ("enable_entities", VBool true);
                      ("diarization", VStr "speaker") ]) ].

(** How [axios.post] of the job ends: rejected; answered with a body
    that is [null] or [undefined], so that reading its [id] throws a
    TypeError with the engine's message; or answered with a body of which
    [id] can be read. *)
Inductive Creation : Type :=
| Rejected (error : Failure)
| Unreadable (type_error_message : string)
| Created.

(** The route handler; [has_file] tells whether [req.file] is set and
    [language] is [req.body.language]. *)
Definition transcribe (has_file : bool) (language : value)
    (creation : Creation) (replies : nat → Poll) : Response * list Call :=
  if negb has_file then
    (mkResponse (VNum 400) (JSON_object [("error", VStr "No file uploaded")]), [])
  else
    let post := PostJob (job_config language) in
    match creation with
    | Rejected error => (error_response error, [post])
    | Unreadable m => (error_response (new_Error m), [post])
    | Created =>
        let '(result, calls) := poll_job replies in
        match result with
        | inr transcript =>
            (mkResponse (VNum 200) (JSON_object [("transcript", transcript)]), post :: calls)
        | inl error => (error_response error, post :: calls)
        end
    end.

(** [GET /api/health] *)
Definition health (w : World) : value :=
  JSON_object [ ("status", VStr "ok");
                ("activeSessions", VNum (Z.of_nat (size (activeSessions w))));
                ("maxSessions", VNum (Z.of_nat MAX_CONCURRENT_SESSIONS)) ].

(** *** Vocabulary *)

(** The transcript a round hands over, if it does. *)
Definition delivered (p : Poll) : option value :=
  match status_reply p with
  | Normal data =>
      if is_str (get_opt (get_opt data "job") "status") "done" then
        match transcript_reply p with
        | Normal transcript => Some transcript
        | Throw _ => None
        end
      else None
  | Throw _ => None
  end.

Definition status_requests (calls : list Call) : nat :=
  length (List.filter (fun c => match c with GetStatus => true | _ => false end) calls).

Fixpoint slept (calls : list Call) : Z :=
  match calls with
  | [] => 0
  | Sleep ms :: rest => ms + slept rest
  | _ :: rest => slept rest
  end.


(** The sleep of [remaining] rounds from round [attempts] on. *)
Fixpoint budget (remaining attempts : nat) : Z :=
  match remaining with
  | 0 => 0
  | S remaining' => delay attempts + budget remaining' (S attempts)
  end.

(** ** Sample data for the examples *)

Definition quoted (s : string) : string :=
  String (ascii_of_nat 34) (String.append s (String (ascii_of_nat 34) EmptyString)).

(** The text [{"message":"AddPartialTranscript","metadata":{"transcript":"hello"}}]. *)
Definition partial_hello_text : string :=
  String.concat EmptyString
    [ "{"; quoted "message"; ":"; quoted "AddPartialTranscript"; ",";
      quoted "metadata"; ":{"; quoted "transcript"; ":"; quoted "hello"; "}}" ].

Definition partial_hello : value :=
  VObj [ ("message", VStr "AddPartialTranscript");
         ("metadata", VObj [("transcript", VStr "hello")]) ].

(** The text [{"message":"AudioAdded","seq_no":1}]. *)
Definition audio_added_text : string :=
  String.concat EmptyString
    [ "{"; quoted "message"; ":"; quoted "AudioAdded"; ","; quoted "seq_no"; ":1}" ].

Definition audio_added : value :=
  VObj [ ("message", VStr "AudioAdded"); ("seq_no", VNum 1) ].

(** [JSON.parse] on the texts the examples use: the two messages above and
    the number [123] are JSON; no other text is used as JSON below. *)
Definition sample_parse (text : string) : option value :=
  if String.eqb text partial_hello_text then Some partial_hello
  else if String.eqb text audio_added_text then Some audio_added
  else if String.eqb text "123" then Some (VNum 123)
  else None.

(** [Buffer.toString] on ASCII bytes. *)
Definition sample_toString (bytes : string) : string := bytes.

(** Four bytes of PCM audio (two samples); not a JSON text. *)
Definition pcm_frame : Data :=
  Buf (String (ascii_of_nat 16) (String (ascii_of_nat 0)
      (String (ascii_of_nat 32) (String (ascii_of_nat 1) EmptyString)))).

Definition sample_key : string := "dGhlIHNhbXBsZSBub25jZQ==".

Definition sample_request : Request := mkRequest sample_key "/?lang=en".

Definition sample_runtime : Runtime :=
  {| JSON_parse := sample_parse; Buffer_toString := sample_toString |}.

Definition sample_run (events : list Event) : World * list Effect :=
  run (runtime := sample_runtime) events init.

(** One client is connected; its Speechmatics socket is still connecting. *)
Definition one_session : World :=
  (sample_run [Connection sample_request (Normal tt)]).1.

Definition connecting_session : Session :=
  mkSession sample_key 0 (Some CONNECTING) false false true (VStr "en").

(** One client is connected and its Speechmatics socket is open. *)
Definition streaming : World :=
  (sample_run [Connection sample_request (Normal tt); UpstreamOpen 0]).1.

Definition streaming_session : Session :=
  mkSession sample_key 0 (Some OPEN) false false true (VStr "en").

(** The client has come, streamed and gone. *)
Definition closed_down : list Event :=
  [Connection sample_request (Normal tt); UpstreamOpen 0; ClientClosed 0].

Definition closed_session : Session :=
  mkSession sample_key 0 (Some CLOSING) true false false (VStr "en").

Definition other_request : Request := mkRequest "eW91ciBvd24gbm9uY2UhIQ==" "/".

(** A job that is still running, one that failed, and one that is done. *)
Definition running_poll : Poll :=
  mkPoll (Normal (VObj [("job", VObj [("status", VStr "running")])])) (Throw "not asked").

Definition failed_job : value :=
  VObj [ ("job", VObj [("status", VStr "failed")]); ("detail", VStr "Invalid audio") ].

Definition failed_poll : Poll := mkPoll (Normal failed_job) (Throw "not asked").

Definition sample_transcript : value :=
  VObj [("results", VArr [VObj [("content", VStr "hello")]])].

Definition done_poll : Poll :=
  mkPoll (Normal (VObj [("job", VObj [("status", VStr "done")])])) (Normal sample_transcript).

(** The job is done at the third poll. *)
Definition done_on_third (j : nat) : Poll := if j <? 2 then running_poll else done_poll.

(** The text [{"message":"Error","reason":"Invalid audio"}]. *)
Definition upstream_error_text : string :=
  String.concat EmptyString
    [ "{"; quoted "message"; ":"; quoted "Error"; ",";
      quoted "reason"; ":"; quoted "Invalid audio"; "}" ].

Definition upstream_error : list (string * value) :=
  [ ("message", VStr "Error"); ("reason", VStr "Invalid audio") ].

(** The sample runtime, with [JSON.parse] knowing the text above too. *)
Definition second_runtime : Runtime :=
  {| JSON_parse := fun text =>
       if String.eqb text upstream_error_text then Some (VObj upstream_error)
       else sample_parse text;
     Buffer_toString := sample_toString |}.

(** After the first client has gone, a second one meets a constructor
    that throws. *)
Definition late_failure : list Event :=
  [Connection other_request (Throw "connect failed"); PingTick 0 OPEN; ClientError 0].

(** * Properties *)

(** ** Language selection *)

Lemma parse_language_total url : ∃ v, parse_language url = Normal v.
Proof.
  unfold parse_language, URLSearchParams; cbn.
  match goal with |- context [JS.or ?a ?b] => destruct (JS.or a b) end; eauto.
Qed.

Lemma supported_code_selected code :
  code ∈ (fst <$> SUPPORTED_LANGUAGES) →
  parse_language (String.append "/?lang=" code) = Normal (VStr code).
Proof.
  cbn. rewrite !elem_of_cons, elem_of_nil.
  intros H. repeat (destruct H as [-> | H]; [reflexivity |]). destruct H.
Qed.

Example unsupported_zz_defaults : parse_language "/?lang=zz" = Normal (VStr "ar").
Proof. reflexivity. Qed.

Example missing_lang_defaults : parse_language "/" = Normal (VStr "ar").
Proof. reflexivity. Qed.

Example malformed_query_defaults : parse_language "/?%zz&&=&lang=%E0%A4%A" = Normal (VStr "ar").
Proof. reflexivity. Qed.

(** A name that is neither a supported code nor inherited from
    [Object.prototype] selects the default. *)
Lemma unknown_name_defaults key :
  assoc key SUPPORTED_LANGUAGES = None →
  assoc key Object_prototype = None →
  supported_or_default key = VStr "ar".
Proof.
  intros Hown Hproto. unfold supported_or_default, get_own_or_inherited.
  rewrite Hown, Hproto. reflexivity.
Qed.

(** A name inherited from [Object.prototype] selects the inherited value,
    which is never the default. *)
Lemma inherited_names_are_selected key v :
  assoc key Object_prototype = Some v →
  supported_or_default key = v ∧ v ≠ VStr "ar".
Proof.
  intros H. cbn in H.
  repeat case_match; simplify_eq;
    match goal with
    | E : String.eqb _ _ = true |- _ => apply String.eqb_eq in E; subst
    end;
    (split; [reflexivity | discriminate]).
Qed.

(** C7 (evaluation at the failing input): with [lang=constructor] the
    lookup in [SUPPORTED_LANGUAGES] finds the inherited [constructor]
    property, which is truthy, so the session language is the function
    [Object] and not the default [ar]; the [StartRecognition] message
    then carries no language at all. *)
Theorem inherited_name_is_not_defaulted :
  parse_language "/?lang=constructor" = Normal (VFun "Object") ∧
  (sample_run [Connection (mkRequest sample_key "/?lang=constructor") (Normal tt);
               UpstreamOpen 0]).2 !! 0 =
    Some (UpstreamSend 0
            (Json (VObj
               [ ("message", VStr "StartRecognition");
                 ("transcription_config",
                   VObj [ ("diarization", VStr "none");
                          ("operating_point", VStr "enhanced");
                          ("max_delay_mode", VStr "flexible");
                          ("max_delay", VNum 1);
                          ("enable_partials", VBool true);
                          ("enable_entities", VBool true) ]);
                 ("audio_format",
                   VObj [ ("type", VStr "raw"); ("sample_rate", VNum 16000);
                          ("encoding", VStr "pcm_s16le") ]) ]))).
Proof. split; reflexivity. Qed.

(** ** What one listener call does *)

Section Listeners.

Context {runtime : Runtime}.


Lemma client_on_message_state data s : (client_on_message data s).1 = s.
Proof.
  unfold client_on_message.
  repeat case_match; reflexivity.
Qed.

Lemma guard_always_holds data : is_string data || Buffer_isBuffer data = true.
Proof. destruct data; reflexivity. Qed.

(** C10: on a session that is not closed, a client frame whose text is
    JSON is taken as configuration and nothing is sent upstream, be it a
    string or a Buffer; a frame whose text is not JSON is sent upstream
    unchanged when the Speechmatics socket is open, and dropped otherwise.
    Two frames with the same text are treated alike. *)
Theorem frames_classified_by_JSON_only s :
  closed s = false →
  (∀ data, is_Some (JSON_parse (toString data)) → client_on_message data s = (s, [])) ∧
  (∀ data, JSON_parse (toString data) = None →
     client_on_message data s =
       (s, if speechmaticsWs s is Some OPEN
           then [UpstreamSend (clientWs s) (Raw data)] else [])) ∧
  (∀ data data', toString data = toString data' → forwarded data s = forwarded data' s).
Proof.
  intros Hopen. split_and!.
  - intros data [v Hv]. unfold client_on_message.
    rewrite Hopen, guard_always_holds, Hv. reflexivity.
  - intros data Hv. unfold client_on_message.
    rewrite Hopen, guard_always_holds, Hv.
    destruct (speechmaticsWs s) as [[]|]; reflexivity.
  - intros data data' Heq. unfold forwarded, client_on_message.
    rewrite Hopen, !guard_always_holds, Heq.
    destruct (JSON_parse (toString data')); [reflexivity |].
    destruct (speechmaticsWs s) as [[]|]; reflexivity.
Qed.

Lemma is_str_exclusive kind a b : a ≠ b → is_str kind a = true → is_str kind b = false.
Proof.
  destruct kind; try discriminate. cbn. intros Hne Ha.
  apply String.eqb_eq in Ha. subst. apply String.eqb_neq. congruence.
Qed.

Lemma dispatch_audioReceived msg kind s :
  audioReceived (dispatch_message msg kind s).1 =
    audioReceived s || is_str kind "AudioAdded".
Proof.
  unfold dispatch_message.
  destruct (is_str kind "RecognitionStarted") eqn:H1.
  { rewrite (is_str_exclusive kind "RecognitionStarted" "AudioAdded" ltac:(discriminate) H1). cbn. by rewrite orb_false_r. }
  destruct (is_str kind "AddPartialTranscript") eqn:H2.
  { rewrite (is_str_exclusive kind "AddPartialTranscript" "AudioAdded" ltac:(discriminate) H2). cbn. by rewrite orb_false_r. }
  destruct (is_str kind "AddTranscript") eqn:H3.
  { rewrite (is_str_exclusive kind "AddTranscript" "AudioAdded" ltac:(discriminate) H3). cbn. by rewrite orb_false_r. }
  cbn [orb].
  destruct (is_str kind "AudioAdded") eqn:H4.
  { destruct (audioReceived s) eqn:Ha; cbn; [by rewrite Ha | reflexivity]. }
  rewrite orb_false_r. repeat case_match; reflexivity.
Qed.

(** C9 (as the code has it): a client frame that arrives while the
    Speechmatics socket is not open is dropped and the listener returns;
    the client-message listener never changes the session, so forwarding
    a frame does not set [audioReceived]; the flag is set by the listener
    of the Speechmatics socket, exactly when a message [AudioAdded] is
    processed on a session that is not closed. *)
Theorem audioReceived_follows_AudioAdded s data :
  (closed s = false → speechmaticsWs s ≠ Some OPEN → client_on_message data s = (s, [])) ∧
  (client_on_message data s).1 = s ∧
  audioReceived (speechmatics_on_message data s).1 =
    audioReceived s || (negb (closed s) && acknowledges_audio data).
Proof.
  split_and!.
  - intros Hopen Hup. unfold client_on_message. rewrite Hopen.
    repeat case_match; simplify_eq; try reflexivity;
      destruct (speechmaticsWs s) as [[]|]; try discriminate; congruence.
  - apply client_on_message_state.
  - unfold speechmatics_on_message, acknowledges_audio.
    destruct (closed s); cbn; [by rewrite orb_false_r |].
    destruct (JSON_parse (toString data)) as [msg|]; [| by rewrite orb_false_r].
    destruct (JS.get msg "message") as [kind|]; [| by rewrite orb_false_r].
    apply dispatch_audioReceived.
Qed.

(** One call of the [close] or of the [error] listener of the
    Speechmatics socket, on a session that is not closed, sends the
    client one event, with the close code and reason, or with the error
    message, and does nothing else: it does not close the client socket
    and leaves the session as it is. *)
Lemma upstream_listener_sends_one_event s code reason message :
  closed s = false →
  speechmatics_on_close code reason s =
    (s, [ClientSend (clientWs s)
           (JSON_object [ ("type", VStr "speechmatics_disconnected");
                          ("message", VStr "Speechmatics connection closed");
                          ("code", VNum code);
                          ("reason", from_option (λ r, VStr (toString r)) VUndefined reason) ])]) ∧
  speechmatics_on_error message s =
    (s, [ClientSend (clientWs s)
           (VObj [ ("type", VStr "error");
                   ("message", VStr "Speechmatics connection error");
                   ("details", VStr message) ])]) ∧
  (ClientClose (clientWs s) ∉ (speechmatics_on_close code reason s).2) ∧
  (ClientClose (clientWs s) ∉ (speechmatics_on_error message s).2).
Proof.
  intros Hopen. unfold speechmatics_on_close, speechmatics_on_error.
  rewrite Hopen. cbn [negb].
  split_and!.
  - destruct reason; reflexivity.
  - reflexivity.
  - cbn [snd]. rewrite list_elem_of_singleton. discriminate.
  - cbn [snd]. rewrite list_elem_of_singleton. discriminate.
Qed.

(** C8: on a session that is not closed, a message [AddPartialTranscript]
    is passed to the client as [{type: partial, transcript}] and a message
    [AddTranscript] as [{type: final, transcript}]; the transcript is the
    string [metadata.transcript] of the message, and the empty string when
    the message has no metadata or the metadata no transcript. *)
Theorem transcripts_are_relayed s data fields kind type :
  closed s = false →
  JSON_parse (toString data) = Some (VObj fields) →
  (kind, type) ∈ [("AddPartialTranscript", "partial"); ("AddTranscript", "final")] →
  assoc "message" fields = Some (VStr kind) →
  (∀ metadata transcript,
     assoc "metadata" fields = Some (VObj metadata) →
     assoc "transcript" metadata = Some (VStr transcript) →
     speechmatics_on_message data s =
       (s, [ClientSend (clientWs s)
              (VObj [("type", VStr type); ("transcript", VStr transcript)])])) ∧
  (assoc "metadata" fields = None ∨
   (∃ metadata, assoc "metadata" fields = Some (VObj metadata) ∧
                assoc "transcript" metadata = None) →
   speechmatics_on_message data s =
     (s, [ClientSend (clientWs s)
            (VObj [("type", VStr type); ("transcript", VStr EmptyString)])])).
Proof.
  intros Hopen Hparse Hkind Hmsg.
  assert (Hhead : ∀ t,
    JS.or (get_opt (get_opt (VObj fields) "metadata") "transcript") (VStr EmptyString) = VStr t →
    speechmatics_on_message data s =
      (s, [ClientSend (clientWs s) (VObj [("type", VStr type); ("transcript", VStr t)])])).
  { intros t Ht. unfold speechmatics_on_message.
    rewrite Hopen, Hparse. cbn [JS.get]. unfold get_own_or_inherited at 1.
    rewrite Hmsg. unfold dispatch_message. rewrite Ht.
    rewrite !elem_of_cons, elem_of_nil in Hkind.
    destruct Hkind as [Hk | [Hk | []]]; inversion Hk; subst; reflexivity. }
  split.
  - intros metadata transcript Hmeta Htr. apply Hhead.
    cbn [get_opt]. unfold get_own_or_inherited. rewrite Hmeta.
    cbn [get_opt]. unfold get_own_or_inherited. rewrite Htr.
    unfold JS.or. cbn [truthy]. destruct transcript; reflexivity.
  - intros [Hmeta | (metadata & Hmeta & Htr)]; apply Hhead.
    + cbn [get_opt]. unfold get_own_or_inherited. rewrite Hmeta. reflexivity.
    + cbn [get_opt]. unfold get_own_or_inherited. rewrite Hmeta.
      cbn [get_opt]. unfold get_own_or_inherited. rewrite Htr. reflexivity.
Qed.

End Listeners.

(** ** Runs of the event loop *)

Lemma evolves_refl s : evolves s s.
Proof. by repeat split. Qed.

Lemma evolves_trans s1 s2 s3 : evolves s1 s2 → evolves s2 s3 → evolves s1 s3.
Proof. unfold evolves. intros (?&?&?&?&?) (?&?&?&?&?). split_and!; try congruence; eauto. Qed.

Lemma set_speechmaticsWs_same s r :
  speechmaticsWs s = Some r → set_speechmaticsWs (Some r) s = s.
Proof. destruct s; cbn; intros ->; reflexivity. Qed.

Lemma store_same c s w : sessions w !! c = Some s → store c s w = w.
Proof. intros H. destruct w; unfold store; cbn in *. by rewrite insert_id. Qed.

#[local] Ltac crush_session :=
  repeat first
    [ progress cbn in *
    | progress simplify_eq
    | case_match
    | match goal with
      | |- context [ws_close ?c ?r] => destruct r
      | |- evolves _ _ => unfold evolves; split_and!; intros; try done
      end ].

Section Runs.

Context {runtime : Runtime}.


Lemma dispatch_evolves msg kind s : evolves s (dispatch_message msg kind s).1.
Proof. unfold dispatch_message. crush_session. Qed.

Lemma speechmatics_on_message_evolves data s : evolves s (speechmatics_on_message data s).1.
Proof.
  unfold speechmatics_on_message.
  repeat case_match; try apply evolves_refl. apply dispatch_evolves.
Qed.

Lemma client_on_close_evolves s registry : evolves s (client_on_close s registry).1.1.
Proof.
  unfold client_on_close, clearInterval, Map_delete.
  destruct (speechmaticsWs s) as [[]|] eqn:Hu; destruct s; cbn in *; subst;
    unfold evolves; cbn; split_and!; intros; done.
Qed.

Lemma client_on_error_evolves s registry : evolves s (client_on_error s registry).1.1.
Proof.
  unfold client_on_error, clearInterval, Map_delete.
  destruct (speechmaticsWs s) as [[]|] eqn:Hu; destruct s; cbn in *; subst;
    unfold evolves; cbn; split_and!; intros; done.
Qed.

(** Every listener of connection [c] keeps the identity of its session
    object, never reopens a closed session and never gives a session a
    Speechmatics socket. *)
Lemma step_evolves e w c s :
  well_formed w → sessions w !! c = Some s →
  ∃ s', sessions (step e w).1 !! c = Some s' ∧ evolves s s'.
Proof.
  intros Hwf Hs. destruct (Hwf _ _ Hs) as [Hlt _].
  assert (Hlocal : ∀ c' (h : Session → Session * list Effect),
            (∀ x, evolves x (h x).1) →
            ∃ s', sessions (on_session c' w h).1 !! c = Some s' ∧ evolves s s').
  { intros c' h Hh. unfold on_session.
    destruct (sessions w !! c') as [x|] eqn:Hx; cbn.
    - specialize (Hh x). destruct (h x) as [x' effects]; cbn in *.
      destruct (decide (c' = c)) as [-> | Hne].
      + rewrite lookup_insert_eq. simplify_eq. eauto.
      + rewrite lookup_insert_ne by done. eauto using evolves_refl.
    - eauto using evolves_refl. }
  assert (Hupstream : ∀ c' allowed after (h : Session → Session * list Effect),
            (∀ x, evolves x (h x).1) →
            ∃ s', sessions (on_upstream c' w allowed after h).1 !! c = Some s' ∧ evolves s s').
  { intros c' allowed after h Hh. apply Hlocal. intros x.
    destruct (speechmaticsWs x) as [r|] eqn:Hr; [| apply evolves_refl].
    destruct (allowed r); [| apply evolves_refl].
    eapply evolves_trans; [| apply Hh].
    destruct x; unfold evolves; cbn in *; split_and!; intros; try done; congruence. }
  destruct e; cbn [step].
  - unfold on_connection. case_match; cbn; [eauto using evolves_refl |].
    destruct (setupSpeechmatics _ _) as [s0 effects]; cbn.
    rewrite lookup_insert_ne by lia. eauto using evolves_refl.
  - apply Hlocal. intros x. rewrite client_on_message_state. apply evolves_refl.
  - destruct (sessions w !! c0) as [x|] eqn:Hx; [| eauto using evolves_refl].
    pose proof (client_on_close_evolves x (activeSessions w)) as He.
    destruct (client_on_close x (activeSessions w)) as [[x' registry] effects]; cbn in *.
    destruct (decide (c0 = c)) as [-> | Hne].
    + rewrite lookup_insert_eq. simplify_eq. eauto.
    + rewrite lookup_insert_ne by done. eauto using evolves_refl.
  - destruct (sessions w !! c0) as [x|] eqn:Hx; [| eauto using evolves_refl].
    pose proof (client_on_error_evolves x (activeSessions w)) as He.
    destruct (client_on_error x (activeSessions w)) as [[x' registry] effects]; cbn in *.
    destruct (decide (c0 = c)) as [-> | Hne].
    + rewrite lookup_insert_eq. simplify_eq. eauto.
    + rewrite lookup_insert_ne by done. eauto using evolves_refl.
  - apply Hlocal. intros x. unfold ping. repeat case_match; apply evolves_refl.
  - apply Hupstream. intros x. apply evolves_refl.
  - apply Hupstream. intros x. apply speechmatics_on_message_evolves.
  - apply Hupstream. intros x. unfold speechmatics_on_close.
    case_match; apply evolves_refl.
  - apply Hupstream. intros x. unfold speechmatics_on_error.
    case_match; apply evolves_refl.
Qed.

Lemma on_session_fresh c c' w h :
  sessions w !! c = None → sessions (on_session c' w h).1 !! c = None.
Proof.
  intros Hnone. unfold on_session.
  destruct (sessions w !! c') as [x|] eqn:Hx; [| done].
  destruct (h x) as [x' effects]; cbn.
  rewrite lookup_insert_ne; [done | congruence].
Qed.

Lemma step_connections e w : connections w ≤ connections (step e w).1.
Proof.
  destruct e; cbn [step]; unfold on_upstream, on_session, on_connection;
    repeat case_match; cbn; lia.
Qed.

(** A session object appears only in the connection listener, under the
    number of the new connection. *)
Lemma step_fresh e w c :
  sessions w !! c = None →
  sessions (step e w).1 !! c = None ∨
  (c < connections (step e w).1 ∧
   ∃ s, sessions (step e w).1 !! c = Some s ∧ clientWs s = c).
Proof.
  intros Hnone.
  destruct e; cbn [step]; unfold on_upstream;
    try (left; by apply on_session_fresh).
  - unfold on_connection. case_match; cbn; [by left |].
    destruct (setupSpeechmatics _ _) as [s0 effects] eqn:Hsetup; cbn.
    destruct (decide (c = connections w)) as [-> | Hne].
    + right. split; [lia |]. exists s0. rewrite lookup_insert_eq. split; [done |].
      unfold setupSpeechmatics in Hsetup. repeat case_match; by simplify_eq.
    + left. by rewrite lookup_insert_ne.
  - left. destruct (sessions w !! c0) as [x|] eqn:Hx; [| done].
    destruct (client_on_close x (activeSessions w)) as [[x' registry] effects]; cbn.
    rewrite lookup_insert_ne; [done | congruence].
  - left. destruct (sessions w !! c0) as [x|] eqn:Hx; [| done].
    destruct (client_on_error x (activeSessions w)) as [[x' registry] effects]; cbn.
    rewrite lookup_insert_ne; [done | congruence].
Qed.

Lemma step_well_formed e w : well_formed w → well_formed (step e w).1.
Proof.
  intros Hwf c s Hs.
  destruct (sessions w !! c) as [s0|] eqn:Hs0.
  - destruct (step_evolves e w c s0 Hwf Hs0) as (s' & Hs' & Hev).
    rewrite Hs in Hs'. simplify_eq.
    destruct (Hwf _ _ Hs0) as [Hlt Hc]. destruct Hev as (_ & Hc' & _).
    pose proof (step_connections e w). split; [lia | congruence].
  - destruct (step_fresh e w c Hs0) as [Hnone | (Hlt & s' & Hs' & Hc)]; [congruence |].
    rewrite Hs in Hs'. by simplify_eq.
Qed.

Lemma reachable_well_formed w : reachable w → well_formed w.
Proof.
  induction 1 as [| e w _ IH]; [| by apply step_well_formed].
  intros c s Hs. cbn in Hs. by rewrite lookup_empty in Hs.
Qed.

Lemma run_reachable events w : reachable w → reachable (run events w).1.
Proof.
  revert w. induction events as [| e events IH]; intros w Hw; cbn; [done |].
  pose proof (reachable_step e w Hw) as Hstep.
  destruct (step e w) as [w1 effects1]. specialize (IH w1 Hstep).
  destruct (run events w1) as [w2 effects2]. done.
Qed.

Lemma run_evolves events w c s :
  well_formed w → sessions w !! c = Some s →
  ∃ s', sessions (run events w).1 !! c = Some s' ∧ evolves s s'.
Proof.
  revert w s. induction events as [| e events IH]; intros w s Hwf Hs; cbn.
  - eauto using evolves_refl.
  - destruct (step_evolves e w c s Hwf Hs) as (s1 & Hs1 & Hev1).
    pose proof (step_well_formed e w Hwf) as Hwf1.
    destruct (step e w) as [w1 effects1]; cbn in *.
    destruct (IH w1 s1 Hwf1 Hs1) as (s2 & Hs2 & Hev2).
    destruct (run events w1) as [w2 effects2]; cbn in *.
    eauto using evolves_trans.
Qed.

(** The registry never holds more than [MAX_CONCURRENT_SESSIONS] keys. *)
Lemma step_registry_bound e w :
  size (activeSessions w) ≤ MAX_CONCURRENT_SESSIONS →
  size (activeSessions (step e w).1) ≤ MAX_CONCURRENT_SESSIONS.
Proof.
  intros Hle.
  assert (Hsame : ∀ c h, activeSessions (on_session c w h).1 = activeSessions w).
  { intros c h. unfold on_session. repeat case_match; reflexivity. }
  destruct e; cbn [step]; unfold on_upstream; rewrite ?Hsame; try done.
  - unfold on_connection.
    destruct (MAX_CONCURRENT_SESSIONS <=? size (activeSessions w))%nat eqn:Hfull; cbn; [done |].
    apply Nat.leb_gt in Hfull.
    destruct (setupSpeechmatics _ _) as [s0 effects]; cbn.
    rewrite map_size_insert. case_match; unfold Datatypes.id; lia.
  - destruct (sessions w !! c) as [x|]; [| done].
    unfold client_on_close, clearInterval, Map_delete. repeat case_match; simplify_eq; cbn.
    all: rewrite map_size_delete; case_match; unfold Datatypes.id; lia.
  - destruct (sessions w !! c) as [x|]; [| done].
    unfold client_on_error, clearInterval, Map_delete. repeat case_match; simplify_eq; cbn.
    all: rewrite map_size_delete; case_match; unfold Datatypes.id; lia.
Qed.

Lemma reachable_registry_bound w :
  reachable w → size (activeSessions w) ≤ MAX_CONCURRENT_SESSIONS.
Proof.
  induction 1 as [| e w _ IH]; [| by apply step_registry_bound].
  cbn. rewrite map_size_empty. lia.
Qed.

Lemma run_registry_bound events :
  size (activeSessions (run events init).1) ≤ MAX_CONCURRENT_SESSIONS.
Proof. apply reachable_registry_bound, run_reachable, reachable_init. Qed.

Lemma run_well_formed events : well_formed (run events init).1.
Proof. apply reachable_well_formed, run_reachable, reachable_init. Qed.

(** The relay closes a client socket in one place only: when it turns
    the connection away. *)
Lemma relay_closes_only_rejected_clients e w c :
  ClientClose c ∈ (step e w).2 →
  ∃ req ctor, e = Connection req ctor ∧
              MAX_CONCURRENT_SESSIONS ≤ size (activeSessions w) ∧ c = connections w.
Proof.
  destruct e; cbn [step];
    unfold on_upstream, on_session, on_connection, setupSpeechmatics,
      client_on_message, speechmatics_on_message, dispatch_message,
      speechmatics_on_close, speechmatics_on_error, speechmatics_on_open,
      client_on_close, client_on_error, clearInterval, Map_delete, ws_close, ping;
    intros Hin.
  1: destruct (MAX_CONCURRENT_SESSIONS <=? size (activeSessions w)) eqn:Hfull.
  1: { apply Nat.leb_le in Hfull. cbn in Hin.
       rewrite !elem_of_cons, elem_of_nil in Hin.
       destruct Hin as [Hin | [Hin | []]]; [discriminate |]. simplify_eq. eauto. }
  all: exfalso; repeat case_match; simplify_eq; cbn in Hin;
    repeat (rewrite ?elem_of_app, ?elem_of_cons, ?elem_of_nil in Hin);
    repeat case_match; cbn in Hin;
    repeat (rewrite ?elem_of_app, ?elem_of_cons, ?elem_of_nil in Hin);
    intuition discriminate.
Qed.

(** Admission as the connection listener does it: the registry never
    holds more than two
    sessions; a connection that arrives when it holds two or more is sent
    the capacity error once, is closed and is not registered; a connection
    that arrives when it holds fewer is registered under its
    [sec-websocket-key], which adds one to the size when the key is new
    and replaces the entry when the key is already there. *)
Theorem admission_keeps_the_cap :
  (∀ events, size (activeSessions (run events init).1) ≤ 2) ∧
  capacity_error =
    VObj [("type", VStr "error");
          ("message", VStr "Server at capacity. Please try again later.")] ∧
  (∀ w req ctor,
     2 ≤ size (activeSessions w) →
     on_connection req ctor w =
       (mkWorld (activeSessions w) (sessions w) (S (connections w)),
        [ClientSend (connections w) capacity_error; ClientClose (connections w)])) ∧
  (∀ w req ctor,
     size (activeSessions w) < 2 →
     let w' := (on_connection req ctor w).1 in
     activeSessions w' !! sec_websocket_key req = Some (connections w) ∧
     size (activeSessions w') =
       if activeSessions w !! sec_websocket_key req is Some _
       then size (activeSessions w)
       else S (size (activeSessions w))).
Proof.
  split_and!.
  - apply run_registry_bound.
  - reflexivity.
  - intros w req ctor Hfull. unfold on_connection.
    apply Nat.leb_le in Hfull. unfold MAX_CONCURRENT_SESSIONS. by rewrite Hfull.
  - intros w req ctor Hroom. unfold on_connection.
    apply Nat.leb_gt in Hroom. unfold MAX_CONCURRENT_SESSIONS. rewrite Hroom.
    destruct (setupSpeechmatics _ _) as [s0 effects]; cbn.
    rewrite lookup_insert_eq, map_size_insert. split; [done |].
    by case_match.
Qed.

(** With a key that is not in the registry, admission adds one entry. *)
Lemma fresh_key_adds_one w req ctor :
  size (activeSessions w) < 2 →
  activeSessions w !! sec_websocket_key req = None →
  size (activeSessions (on_connection req ctor w).1) = S (size (activeSessions w)).
Proof.
  intros Hroom Hfresh.
  destruct admission_keeps_the_cap as (_ & _ & _ & Hadmit).
  destruct (Hadmit w req ctor Hroom) as [_ Hsize]. by rewrite Hsize, Hfresh.
Qed.

(** C2: once the [closed] flag of a session is true, neither listener
    passes anything on: a client frame causes no send to Speechmatics and
    a Speechmatics message no send to the client, and this stays so after
    any further events. *)
Theorem closed_session_forwards_nothing before after c s frame message :
  sessions (run before init).1 !! c = Some s →
  closed s = true →
  client_on_message frame s = (s, []) ∧
  speechmatics_on_message message s = (s, []) ∧
  (let w := (run after (run before init).1).1 in
   step (ClientMessage c frame) w = (w, []) ∧
   step (UpstreamMessage c message) w = (w, [])).
Proof.
  intros Hs Hclosed.
  assert (Hc : ∀ x, closed x = true → client_on_message frame x = (x, [])).
  { intros x Hx. unfold client_on_message. by rewrite Hx. }
  assert (Hu : ∀ x, closed x = true → speechmatics_on_message message x = (x, [])).
  { intros x Hx. unfold speechmatics_on_message. by rewrite Hx. }
  split; [by apply Hc |]. split; [by apply Hu |]. cbv zeta.
  destruct (run_evolves after _ c s (run_well_formed before) Hs)
    as (s' & Hs' & _ & _ & _ & Hstay & _).
  specialize (Hstay Hclosed).
  split; cbn [step]; unfold on_upstream, on_session; rewrite Hs'.
  - rewrite (Hc s' Hstay). by rewrite store_same.
  - destruct (speechmaticsWs s') as [r|] eqn:Hr; [| by rewrite store_same].
    destruct r; rewrite ?(set_speechmaticsWs_same _ _ Hr), ?(Hu s' Hstay);
      by rewrite store_same.
Qed.

(** C3: running the client-side teardown twice on a session, by the
    [close] listener, the [error] listener, or one after the other in
    either order, clears the timer once and deletes the registry entry
    once; after the first call the session is closed, and the second call
    changes nothing and has no effect. *)
Theorem teardown_is_idempotent w c s first second :
  sessions w !! c = Some s →
  pingInterval s = true →
  is_Some (activeSessions w !! id s) →
  let r1 := step (teardown first c) w in
  let r2 := step (teardown second c) r1.1 in
  count is_TimerCleared (r1.2 ++ r2.2) = 1 ∧
  count (is_RegistryDelete (id s)) (r1.2 ++ r2.2) = 1 ∧
  closed <$> sessions r1.1 !! c = Some true ∧
  r2 = (r1.1, []).
Proof.
  intros Hs Hping [c' Hreg].
  destruct first, second; cbn [teardown step]; rewrite Hs;
    unfold client_on_close, client_on_error, clearInterval, Map_delete, count;
    destruct s as [k sock [[]|] cl au pi la]; cbn in Hping, Hreg; subst pi;
    cbn [speechmaticsWs set_closed set_pingInterval set_speechmaticsWs pingInterval
         id clientWs closed audioReceived language ws_close is_OPEN fst snd app];
    rewrite Hreg;
    cbn [fst snd sessions activeSessions connections app];
    rewrite !lookup_insert_eq;
    cbn [speechmaticsWs set_closed set_pingInterval set_speechmaticsWs pingInterval
         id clientWs closed audioReceived language ws_close is_OPEN fst snd app];
    rewrite !lookup_delete_eq, ?delete_delete_eq, ?insert_insert_eq;
    cbn [is_TimerCleared is_RegistryDelete List.filter length app fmap option_fmap option_map];
    rewrite ?String.eqb_refl; done.
Qed.

(** When [new WebSocket] throws, the client is sent one error event
    carrying the exception message; the session is registered, is not
    closed and has no Speechmatics socket, and it never gets one,
    whatever happens afterwards. *)
Lemma setup_failure_first_state before req message after :
  let w := (run before init).1 in
  size (activeSessions w) < 2 →
  let r := on_connection req (Throw message) w in
  let c := connections w in
  r.2 = [ClientSend c
           (VObj [ ("type", VStr "error");
                   ("message", VStr "Failed to setup Speechmatics connection");
                   ("details", VStr message) ])] ∧
  activeSessions r.1 !! sec_websocket_key req = Some c ∧
  (∃ s, sessions r.1 !! c = Some s ∧ closed s = false ∧ speechmaticsWs s = None) ∧
  (∃ s, sessions (run after r.1).1 !! c = Some s ∧ speechmaticsWs s = None).
Proof.
  intros w Hroom r c.
  pose proof (step_well_formed (Connection req (Throw message)) w (run_well_formed before)) as Hwf.
  change (step (Connection req (Throw message)) w) with r in Hwf.
  assert (Hnew : ∃ s, r = (mkWorld (<[sec_websocket_key req := c]> (activeSessions w))
                                   (<[c := s]> (sessions w)) (S c),
                           [ClientSend c
                              (VObj [ ("type", VStr "error");
                                      ("message", VStr "Failed to setup Speechmatics connection");
                                      ("details", VStr message) ])]) ∧
                      closed s = false ∧ speechmaticsWs s = None).
  { subst r c. unfold on_connection.
    apply Nat.leb_gt in Hroom. unfold MAX_CONCURRENT_SESSIONS. rewrite Hroom.
    destruct (parse_language (url req)) as [l | err]; cbn; eauto. }
  destruct Hnew as (s & Hr & Hclosed & Hnone). rewrite Hr in *. cbn [fst snd] in *.
  cbn [activeSessions sessions]. rewrite !lookup_insert_eq.
  split_and!; [done | done | eauto |].
  destruct (run_evolves after _ c s Hwf (lookup_insert_eq _ _ _))
    as (s' & Hs' & _ & _ & _ & _ & Hkeep).
  eauto.
Qed.

End Runs.

(** ** The two teardown listeners *)

(** The [close] listener sends [EndOfStream] exactly when the Speechmatics
    socket is open. *)
Lemma client_close_sends_EndOfStream_iff_open s registry :
  UpstreamSend (clientWs s) EndOfStream ∈ (client_on_close s registry).2 ↔
  speechmaticsWs s = Some OPEN.
Proof.
  unfold client_on_close, clearInterval, Map_delete.
  destruct s as [k sock [[]|] cl au pi la]; cbn;
    repeat case_match; cbn;
    rewrite ?elem_of_cons, ?elem_of_nil; split; intros Hin; try done;
    intuition (try discriminate; auto).
Qed.

(** On the first teardown of a registered session the [close] listener
    closes the session, clears the timer and takes the entry out of the
    registry. *)
Lemma client_close_tears_down s registry c :
  registry !! id s = Some c →
  let r := client_on_close s registry in
  closed r.1.1 = true ∧ pingInterval r.1.1 = false ∧
  speechmaticsWs r.1.1 ≠ Some OPEN ∧
  r.1.2 = delete (id s) registry ∧ size r.1.2 = pred (size registry).
Proof.
  intros Hreg. unfold client_on_close, clearInterval, Map_delete.
  destruct s as [k sock [[]|] cl au pi la]; cbn in *;
    rewrite map_size_delete, Hreg; done.
Qed.

(** The [error] listener sends nothing to Speechmatics. *)
Lemma client_error_sends_nothing_upstream s registry c p :
  UpstreamSend c p ∉ (client_on_error s registry).2.
Proof.
  unfold client_on_error, clearInterval, Map_delete.
  destruct s as [k sock [[]|] cl au pi la]; cbn;
    repeat case_match; cbn;
    rewrite ?elem_of_cons, ?elem_of_nil; intuition discriminate.
Qed.

(** ** Concrete runs

    From here on the runtime is the sample one. *)

Section Examples.

#[local] Existing Instance sample_runtime.

(** C4 (evaluation at the failing input): the client socket fails while
    the Speechmatics socket is open.  The [error] listener clears the
    timer, closes the Speechmatics socket and deletes the registry entry,
    but sends no [EndOfStream]; the [close] listener in the same state
    sends it before closing. *)
Theorem client_error_skips_EndOfStream :
  speechmaticsWs <$> sessions streaming !! 0 = Some (Some OPEN) ∧
  (step (ClientError 0) streaming).2 =
    [TimerCleared 0; UpstreamClose 0; RegistryDelete sample_key] ∧
  (step (ClientClosed 0) streaming).2 =
    [TimerCleared 0; UpstreamSend 0 EndOfStream; UpstreamClose 0;
     RegistryDelete sample_key].
Proof. split_and!; reflexivity. Qed.

(** ** Inputs on which the specification and the code part ways *)

(** C1 (evaluation at the failing input): a second connection with the
    [sec-websocket-key] of a registered session arrives while the
    registry holds one session.  It is admitted, but the registry still
    holds one entry, which now names the second connection: the first
    session is open and no longer counted. *)
Lemma repeated_key_keeps_registry_size :
  size (activeSessions one_session) = 1 ∧
  (on_connection sample_request (Normal tt) one_session).2 = [] ∧
  size (activeSessions (on_connection sample_request (Normal tt) one_session).1) = 1 ∧
  activeSessions (on_connection sample_request (Normal tt) one_session).1 !! sample_key =
    Some 1 ∧
  closed <$> sessions (on_connection sample_request (Normal tt) one_session).1 !! 0 =
    Some false ∧
  closed <$> sessions (on_connection sample_request (Normal tt) one_session).1 !! 1 =
    Some false.
Proof. split_and!; reflexivity. Qed.

(** C6: the constructor of the Speechmatics socket throws.  The client
    gets the error event, but its socket is not closed, the session is
    not closed and it is in the registry. *)
Lemma setup_failure_leaves_client_connected :
  (on_connection sample_request (Throw "connect failed") init).2 =
    [ClientSend 0
       (VObj [ ("type", VStr "error");
               ("message", VStr "Failed to setup Speechmatics connection");
               ("details", VStr "connect failed") ])] ∧
  closed <$> sessions (on_connection sample_request (Throw "connect failed") init).1 !! 0 =
    Some false ∧
  activeSessions (on_connection sample_request (Throw "connect failed") init).1 !! sample_key =
    Some 0.
Proof. split_and!; reflexivity. Qed.

(** C9: a frame of audio arrives while the Speechmatics socket is open.
    It is forwarded, and [audioReceived] is still false afterwards. *)
Lemma forwarded_frame_leaves_audioReceived_false :
  (step (ClientMessage 0 pcm_frame) streaming).2 =
    [UpstreamSend 0 (Raw pcm_frame)] ∧
  audioReceived <$>
    sessions (step (ClientMessage 0 pcm_frame) streaming).1 !! 0 =
    Some false.
Proof. split; reflexivity. Qed.

(** ** The theorems at work on concrete runs *)

(** A connection with a new key arrives while one session is
    registered; the registry then holds two. *)
Lemma admission_keeps_the_cap_witness :
  size (activeSessions one_session) < 2 ∧
  size (activeSessions (on_connection other_request (Normal tt) one_session).1) = 2.
Proof.
  assert (Hroom : size (activeSessions one_session) < 2) by (vm_compute; lia).
  split; [exact Hroom |].
  exact (proj2 (proj2 (proj2 (proj2 (admission_keeps_the_cap)))
                 one_session other_request (Normal tt) Hroom)).
Defined.

(** C2: after the client has gone, an audio frame and a partial
    transcript that still arrive are passed on to nobody. *)
Lemma closed_session_forwards_nothing_witness :
  client_on_message pcm_frame closed_session =
    (closed_session, []) ∧
  speechmatics_on_message (Str partial_hello_text) closed_session =
    (closed_session, []) ∧
  (let w := (run [PingTick 0 OPEN]
               (run closed_down init).1).1 in
   step (ClientMessage 0 pcm_frame) w = (w, []) ∧
   step (UpstreamMessage 0 (Str partial_hello_text)) w = (w, [])).
Proof.
  apply (closed_session_forwards_nothing
           closed_down [PingTick 0 OPEN] 0 closed_session pcm_frame (Str partial_hello_text));
    reflexivity.
Defined.

(** C3: the client socket of a streaming session fails and then closes. *)
Lemma teardown_is_idempotent_witness :
  let r1 := step (teardown true 0) streaming in
  let r2 := step (teardown false 0) r1.1 in
  count is_TimerCleared (r1.2 ++ r2.2) = 1 ∧
  count (is_RegistryDelete (id streaming_session)) (r1.2 ++ r2.2) = 1 ∧
  closed <$> sessions r1.1 !! 0 = Some true ∧
  r2 = (r1.1, []).
Proof.
  apply (teardown_is_idempotent
           streaming 0 streaming_session true false);
    [reflexivity | reflexivity | exists 0; reflexivity].
Defined.

(** Speechmatics closes with code 1000, or its socket fails, while the
    client is streaming: what each listener sends. *)
Lemma upstream_listener_sends_one_event_example :
  speechmatics_on_close 1000 (Some (Buf "bye")) streaming_session =
    (streaming_session,
     [ClientSend 0
        (VObj [ ("type", VStr "speechmatics_disconnected");
                ("message", VStr "Speechmatics connection closed");
                ("code", VNum 1000);
                ("reason", VStr "bye") ])]) ∧
  speechmatics_on_error "socket hang up" streaming_session =
    (streaming_session,
     [ClientSend 0
        (VObj [ ("type", VStr "error");
                ("message", VStr "Speechmatics connection error");
                ("details", VStr "socket hang up") ])]).
Proof.
  destruct (upstream_listener_sends_one_event streaming_session
              1000 (Some (Buf "bye")) "socket hang up" eq_refl) as (Hclose & Herror & _).
  split; [exact Hclose | exact Herror].
Defined.

(** C8: the partial transcript [hello] reaches the client as it is. *)
Lemma transcripts_are_relayed_witness :
  speechmatics_on_message (Str partial_hello_text) streaming_session =
    (streaming_session,
     [ClientSend 0 (VObj [("type", VStr "partial"); ("transcript", VStr "hello")])]).
Proof.
  refine (proj1 (transcripts_are_relayed
                   streaming_session (Str partial_hello_text)
                   [ ("message", VStr "AddPartialTranscript");
                     ("metadata", VObj [("transcript", VStr "hello")]) ]
                   "AddPartialTranscript" "partial" eq_refl eq_refl _ eq_refl)
                [("transcript", VStr "hello")] "hello" eq_refl eq_refl).
  apply list_elem_of_here.
Defined.

(** C9: a frame that arrives while Speechmatics is still connecting is
    dropped; the acknowledgement [AudioAdded] sets the flag. *)
Lemma audioReceived_follows_AudioAdded_witness :
  client_on_message pcm_frame connecting_session =
    (connecting_session, []) ∧
  audioReceived
    (speechmatics_on_message (Str audio_added_text)
       streaming_session).1 = true.
Proof.
  destruct (audioReceived_follows_AudioAdded
              connecting_session pcm_frame) as (Hdrop & _ & _).
  destruct (audioReceived_follows_AudioAdded
              streaming_session (Str audio_added_text)) as (_ & _ & Hset).
  split; [apply Hdrop; [reflexivity | discriminate] | exact Hset].
Defined.

(** C10: a Buffer holding the bytes of [123] is JSON and is not
    forwarded; a Buffer of PCM samples is. *)
Lemma frames_classified_by_JSON_only_witness :
  client_on_message (Buf "123") streaming_session =
    (streaming_session, []) ∧
  client_on_message pcm_frame streaming_session =
    (streaming_session, [UpstreamSend 0 (Raw pcm_frame)]).
Proof.
  destruct (frames_classified_by_JSON_only
              streaming_session eq_refl) as (Hjson & Hraw & _).
  split; [apply Hjson; eexists; reflexivity | apply Hraw; reflexivity].
Defined.

End Examples.

(** * More of the server *)

(** ** Sessions and the registry in every reachable state *)

Section Reachable.

Context {runtime : Runtime}.

Lemma step_handle e w c s :
  target e = Some c → sessions w !! c = Some s →
  step e w =
    (mkWorld (handle e s (activeSessions w)).1.2
             (<[c := (handle e s (activeSessions w)).1.1]> (sessions w))
             (connections w),
     (handle e s (activeSessions w)).2).
Proof.
  intros Ht Hs.
  destruct e; cbn in Ht; simplify_eq; cbn [step handle];
    unfold on_upstream, on_session, store; rewrite Hs; cbn.
  all: repeat match goal with
       | |- context [let '(_, _) := ?x in _] => destruct x as [? ?] eqn:?
       end; cbn; try reflexivity.
  all: repeat case_match; simplify_eq; cbn; try reflexivity.
Qed.

Lemma step_no_listener e w c :
  target e = Some c → sessions w !! c = None → step e w = (w, []).
Proof.
  intros Ht Hs.
  destruct e; cbn in Ht; simplify_eq; cbn [step];
    unfold on_upstream, on_session; rewrite Hs; reflexivity.
Qed.


#[local] Ltac open_handlers :=
  unfold handle, client_on_message, speechmatics_on_message, dispatch_message,
    speechmatics_on_close, speechmatics_on_error, speechmatics_on_open,
    client_on_close, client_on_error, clearInterval, Map_delete, ws_close, ping.

Lemma handle_identity e s registry :
  id (handle e s registry).1.1 = id s ∧ clientWs (handle e s registry).1.1 = clientWs s.
Proof.
  destruct e; open_handlers; destruct s as [k sock [[]|] cl au pi la]; cbn;
    repeat case_match; cbn; done.
Qed.

Lemma handle_teardown e s registry :
  is_teardown e = true →
  closed (handle e s registry).1.1 = true ∧
  (handle e s registry).1.2 = delete (id s) registry.
Proof.
  destruct e; try discriminate; intros _; open_handlers;
    destruct s as [k sock [[]|] cl au pi la]; cbn; done.
Qed.

Lemma handle_other e s registry :
  is_teardown e = false →
  closed (handle e s registry).1.1 = closed s ∧
  pingInterval (handle e s registry).1.1 = pingInterval s ∧
  (handle e s registry).1.2 = registry.
Proof.
  destruct e; try discriminate; intros _; open_handlers;
    destruct s as [k sock [[]|] cl au pi la]; cbn;
    repeat case_match; cbn; done.
Qed.

Lemma handle_coherent e s registry : coherent s → coherent (handle e s registry).1.1.
Proof.
  unfold coherent.
  destruct e; open_handlers; destruct s as [k sock [[]|] [] au pi la]; cbn;
    intros [-> Hup]; repeat case_match; cbn; split; try done;
    intros; try (destruct Hup; done); split; congruence.
Qed.

Lemma handle_effects_own e s registry ef :
  ef ∈ (handle e s registry).2 →
  effect_connection ef = None ∨ effect_connection ef = Some (clientWs s).
Proof.
  destruct e; open_handlers; destruct s as [k sock [[]|] cl au pi la]; cbn;
    repeat case_match; cbn;
    rewrite ?elem_of_cons, ?elem_of_nil; intros Hin;
    repeat (destruct Hin as [-> | Hin]); try done; cbn; auto.
Qed.

Lemma handle_silent e s registry ef :
  coherent s → closed s = true →
  ef ∈ (handle e s registry).2 → effect_connection ef = None.
Proof.
  unfold coherent.
  destruct e; open_handlers; destruct s as [k sock [[]|] cl au pi la]; cbn;
    intros [-> Hup] ->; cbn;
    try (destruct (Hup eq_refl); congruence);
    repeat case_match; cbn;
    rewrite ?elem_of_cons, ?elem_of_nil; intros Hin;
    repeat (destruct Hin as [-> | Hin]); try done.
Qed.


Lemma setupSpeechmatics_fresh ctor s :
  closed s = false → pingInterval s = true →
  let s' := (setupSpeechmatics ctor s).1 in
  id s' = id s ∧ clientWs s' = clientWs s ∧ closed s' = false ∧ coherent s' ∧
  ∀ ef, ef ∈ (setupSpeechmatics ctor s).2 → effect_connection ef = Some (clientWs s).
Proof.
  intros Hc Hp. unfold setupSpeechmatics, coherent.
  destruct ctor; destruct s; cbn in *; subst; split_and!; try done.
  all: intros ef; rewrite ?elem_of_cons, ?elem_of_nil; intros Hin;
    repeat (destruct Hin as [-> | Hin]); done.
Qed.

Lemma step_sound e w : sound w → sound (step e w).1.
Proof.
  intros (Hwf & Hco & Hreg).
  split; [by apply step_well_formed |].
  destruct (target e) as [c|] eqn:Ht.
  - destruct (sessions w !! c) as [s|] eqn:Hs;
      [| rewrite (step_no_listener e w c Ht Hs); done].
    rewrite (step_handle e w c s Ht Hs). cbn [fst sessions activeSessions].
    destruct (handle_identity e s (activeSessions w)) as [Hid Hsock].
    split.
    + intros c' s' Hs'. destruct (decide (c' = c)) as [-> | Hne].
      * rewrite lookup_insert_eq in Hs'. simplify_eq. apply handle_coherent. eauto.
      * rewrite lookup_insert_ne in Hs' by done. eauto.
    + intros k c1 Hk.
      assert (Hold : activeSessions w !! k = Some c1).
      { destruct (is_teardown e) eqn:Htd.
        - destruct (handle_teardown e s (activeSessions w) Htd) as [_ Hdel].
          rewrite Hdel in Hk. apply lookup_delete_Some in Hk. tauto.
        - destruct (handle_other e s (activeSessions w) Htd) as (_ & _ & Hsame).
          by rewrite Hsame in Hk. }
      destruct (Hreg k c1 Hold) as (s1 & Hs1 & Hid1 & Hopen1).
      destruct (decide (c1 = c)) as [-> | Hne].
      * simplify_eq. rewrite lookup_insert_eq. eexists; split_and!; [done | done |].
        destruct (is_teardown e) eqn:Htd.
        -- destruct (handle_teardown e s (activeSessions w) Htd) as [_ Hdel].
           rewrite Hdel, lookup_delete_eq in Hk. discriminate.
        -- destruct (handle_other e s (activeSessions w) Htd) as (Hsame & _). congruence.
      * rewrite lookup_insert_ne by done. eauto.
  - destruct e; try discriminate. cbn [step]. unfold on_connection.
    case_match; cbn [fst sessions activeSessions]; [done |].
    match goal with |- context [setupSpeechmatics ?ctor ?s0] =>
      pose proof (setupSpeechmatics_fresh ctor s0) as Hnew;
      destruct (setupSpeechmatics ctor s0) as [s' effects]
    end.
    cbn [fst snd sessions activeSessions] in *.
    destruct Hnew as (Hid & Hsock & Hopen & Hcoh & _);
      [by repeat case_match | by repeat case_match |].
    assert (Hkey : id s' = sec_websocket_key req) by (rewrite Hid; by repeat case_match).
    split.
    + intros c' s0 Hs0. destruct (decide (c' = connections w)) as [-> | Hne].
      * rewrite lookup_insert_eq in Hs0. by simplify_eq.
      * rewrite lookup_insert_ne in Hs0 by done. eauto.
    + intros k c1 Hk. destruct (decide (k = sec_websocket_key req)) as [-> | Hne].
      * rewrite lookup_insert_eq in Hk. simplify_eq. rewrite lookup_insert_eq. eauto.
      * rewrite lookup_insert_ne in Hk by done.
        destruct (Hreg k c1 Hk) as (s1 & Hs1 & Hid1 & Hopen1).
        destruct (Hwf _ _ Hs1) as [Hlt _].
        rewrite lookup_insert_ne by lia. eauto.
Qed.

Lemma sound_init : sound init.
Proof.
  split_and!; intros ? ? H; cbn in H; by rewrite lookup_empty in H.
Qed.

Lemma run_sound events w : sound w → sound (run events w).1.
Proof.
  revert w. induction events as [| e events IH]; intros w Hw; cbn; [done |].
  pose proof (step_sound e w Hw) as Hstep.
  destruct (step e w) as [w1 effects1]. specialize (IH w1 Hstep).
  destruct (run events w1) as [w2 effects2]. done.
Qed.

Lemma step_silent e w c s ef :
  sound w → sessions w !! c = Some s → closed s = true →
  ef ∈ (step e w).2 → effect_connection ef ≠ Some c.
Proof.
  intros (Hwf & Hco & _) Hs Hclosed Hin.
  destruct (Hwf _ _ Hs) as [Hlt Hsock].
  destruct (target e) as [c'|] eqn:Ht.
  - destruct (sessions w !! c') as [s'|] eqn:Hs';
      [| rewrite (step_no_listener e w c' Ht Hs') in Hin; by apply elem_of_nil in Hin].
    rewrite (step_handle e w c' s' Ht Hs') in Hin. cbn [snd] in Hin.
    destruct (decide (c' = c)) as [-> | Hne].
    + simplify_eq. rewrite (handle_silent _ _ _ _ (Hco _ _ Hs) Hclosed Hin). done.
    + destruct (Hwf _ _ Hs') as [_ Hsock'].
      destruct (handle_effects_own _ _ _ _ Hin) as [-> | ->]; [done |]. congruence.
  - destruct e; try discriminate. cbn [step] in Hin. unfold on_connection in Hin.
    case_match.
    + cbn in Hin. rewrite !elem_of_cons, elem_of_nil in Hin.
      destruct Hin as [-> | [-> | []]]; cbn; intros ?; simplify_eq; lia.
    + match type of Hin with context [setupSpeechmatics ?ctor ?s0] =>
        assert (Hs0 : clientWs s0 = connections w) by (by repeat case_match);
        pose proof (setupSpeechmatics_fresh ctor s0) as Hnew;
        destruct (setupSpeechmatics ctor s0) as [s' effects]
      end.
      cbn [fst snd] in *.
      destruct Hnew as (_ & _ & _ & _ & Hown);
        [by repeat case_match | by repeat case_match |].
      rewrite (Hown _ Hin), Hs0. intros ?; simplify_eq; lia.
Qed.

Lemma run_silent events w c s ef :
  sound w → sessions w !! c = Some s → closed s = true →
  ef ∈ (run events w).2 → effect_connection ef ≠ Some c.
Proof.
  revert w s. induction events as [| e events IH]; intros w s Hw Hs Hclosed; cbn.
  - by rewrite elem_of_nil.
  - pose proof (step_silent e w c s ef Hw Hs Hclosed) as Hnow.
    pose proof (step_sound e w Hw) as Hw1.
    destruct Hw as (Hwf & _).
    destruct (step_evolves e w c s Hwf Hs) as (s1 & Hs1 & _ & _ & _ & Hstay & _).
    destruct (step e w) as [w1 effects1]; cbn [fst snd] in *.
    specialize (IH w1 s1 Hw1 Hs1 (Hstay Hclosed)).
    destruct (run events w1) as [w2 effects2]; cbn [fst snd] in *.
    rewrite elem_of_app. intros [Hin | Hin]; eauto.
Qed.

(** X1: every entry of the registry names a session object that exists,
    carries that key as its id, is not closed and has its timer armed. *)
Theorem registry_entries_are_live events key c :
  activeSessions (run events init).1 !! key = Some c →
  ∃ s, sessions (run events init).1 !! c = Some s ∧
       id s = key ∧ clientWs s = c ∧ closed s = false ∧ pingInterval s = true.
Proof.
  intros Hk. destruct (run_sound events init sound_init) as (Hwf & Hco & Hreg).
  destruct (Hreg key c Hk) as (s & Hs & Hid & Hopen).
  destruct (Hwf c s Hs) as [_ Hsock]. destruct (Hco c s Hs) as [Hping _].
  exists s. rewrite Hping, Hopen. done.
Qed.

(** X2: in every state the server can reach, the timer of a session is
    armed exactly as long as the session is not closed, and a closed
    session has no Speechmatics socket that is open or connecting. *)
Theorem sessions_stay_coherent events c s :
  sessions (run events init).1 !! c = Some s →
  pingInterval s = negb (closed s) ∧
  (closed s = true →
   speechmaticsWs s ≠ Some OPEN ∧ speechmaticsWs s ≠ Some CONNECTING).
Proof.
  intros Hs. destruct (run_sound events init sound_init) as (_ & Hco & _).
  exact (Hco c s Hs).
Qed.

(** X3: once a session is closed, nothing that happens later touches
    its client socket, its Speechmatics socket or its timer: no send, no
    ping, no close. *)
Theorem closed_session_is_silent before after c s ef :
  sessions (run before init).1 !! c = Some s →
  closed s = true →
  ef ∈ (run after (run before init).1).2 →
  effect_connection ef ≠ Some c.
Proof.
  intros Hs Hclosed. eapply run_silent; eauto. apply run_sound, sound_init.
Qed.

(** X4: a Speechmatics message that is not JSON, that is [null], or
    whose [message] is none of the six kinds the listener knows, changes
    nothing and sends nothing; the listener never throws. *)
Theorem unrecognised_messages_are_ignored s data :
  (JSON_parse (toString data) = None → speechmatics_on_message data s = (s, [])) ∧
  (JSON_parse (toString data) = Some VNull → speechmatics_on_message data s = (s, [])) ∧
  (∀ msg kind,
     JSON_parse (toString data) = Some msg →
     JS.get msg "message" = Normal kind →
     (∀ name, name ∈ handled_kinds → is_str kind name = false) →
     speechmatics_on_message data s = (s, [])).
Proof.
  unfold speechmatics_on_message. split_and!.
  - intros ->. by destruct (closed s).
  - intros ->. by destruct (closed s).
  - intros msg kind -> -> Hnot. destruct (closed s); [done |].
    unfold dispatch_message.
    rewrite !Hnot; [done | ..]; unfold handled_kinds; set_solver.
Qed.

(** X5: an [Error] or [Warning] message of Speechmatics is passed to the
    client with its [reason], or with the default text when there is none,
    an [Error] with the whole message as [details]; the session is left
    as it is, nothing is closed. *)
Theorem upstream_errors_are_not_fatal s data fields kind type fallback :
  closed s = false →
  JSON_parse (toString data) = Some (VObj fields) →
  (kind, type, fallback) ∈
    [ ("Error", "error", "Speechmatics error");
      ("Warning", "warning", "Speechmatics warning") ] →
  assoc "message" fields = Some (VStr kind) →
  let details := if String.eqb kind "Error" then [("details", VObj fields)] else [] in
  (∀ reason, assoc "reason" fields = Some (VStr reason) → reason ≠ EmptyString →
     speechmatics_on_message data s =
       (s, [ClientSend (clientWs s)
              (VObj ([("type", VStr type); ("message", VStr reason)] ++ details))])) ∧
  (assoc "reason" fields = None →
     speechmatics_on_message data s =
       (s, [ClientSend (clientWs s)
              (VObj ([("type", VStr type); ("message", VStr fallback)] ++ details))])).
Proof.
  intros Hopen Hparse Hkind Hmsg details.
  assert (Hhead : ∀ m,
    JS.or (get_opt (VObj fields) "reason") (VStr fallback) = VStr m →
    speechmatics_on_message data s =
      (s, [ClientSend (clientWs s)
             (VObj ([("type", VStr type); ("message", VStr m)] ++ details))])).
  { intros m Hm. unfold speechmatics_on_message.
    rewrite Hopen, Hparse. cbn [JS.get]. unfold get_own_or_inherited at 1.
    rewrite Hmsg. unfold dispatch_message.
    rewrite !elem_of_cons, elem_of_nil in Hkind.
    destruct Hkind as [Hk | [Hk | []]]; inversion Hk; subst; cbn [is_str String.eqb Ascii.eqb Bool.eqb orb];
      rewrite Hm; reflexivity. }
  split.
  - intros reason Hr Hne. apply Hhead.
    cbn [get_opt]. unfold get_own_or_inherited. rewrite Hr.
    unfold JS.or. cbn [truthy]. destruct reason; [done | reflexivity].
  - intros Hr. apply Hhead.
    cbn [get_opt]. unfold get_own_or_inherited. rewrite Hr. reflexivity.
Qed.

(** X6: whatever they are given, the listeners of the Speechmatics
    socket for [message], [close] and [error] cause at most one effect,
    and it is a send to the client of their own session. *)
Theorem upstream_listeners_only_notify s data code reason message effects :
  effects ∈ [ (speechmatics_on_message data s).2;
              (speechmatics_on_close code reason s).2;
              (speechmatics_on_error message s).2 ] →
  length effects ≤ 1 ∧ ∀ ef, ef ∈ effects → ∃ v, ef = ClientSend (clientWs s) v.
Proof.
  rewrite !elem_of_cons, elem_of_nil.
  unfold speechmatics_on_message, dispatch_message, speechmatics_on_close, speechmatics_on_error.
  intros [-> | [-> | [-> | []]]]; repeat case_match; cbn; (split; [lia |]);
    intros ef; rewrite ?elem_of_cons, ?elem_of_nil; intros Hin;
    repeat (destruct Hin as [-> | Hin]); try done; eauto.
Qed.


(** X7: a client admitted with [lang=xx] for a supported code gets,
    when its Speechmatics socket opens, a [StartRecognition] for language
    [xx] with 16 kHz [pcm_s16le] audio sent upstream, and then the
    [ready] event. *)
Theorem supported_language_is_announced w key code :
  size (activeSessions w) < 2 →
  code ∈ (fst <$> SUPPORTED_LANGUAGES) →
  let c := connections w in
  let req := mkRequest key (String.append "/?lang=" code) in
  (step (UpstreamOpen c) (on_connection req (Normal tt) w).1).2 =
    [ UpstreamSend c
        (Json (VObj
           [ ("message", VStr "StartRecognition");
             ("transcription_config",
               VObj [ ("language", VStr code);
                      ("diarization", VStr "none");
                      ("operating_point", VStr "enhanced");
                      ("max_delay_mode", VStr "flexible");
                      ("max_delay", VNum 1);
                      ("enable_partials", VBool true);
                      ("enable_entities", VBool true) ]);
             ("audio_format",
               VObj [ ("type", VStr "raw"); ("sample_rate", VNum 16000);
                      ("encoding", VStr "pcm_s16le") ]) ]));
      ClientSend c
        (VObj [ ("type", VStr "ready");
                ("message", VStr "Ready to receive audio");
                ("audio_format",
                  VObj [ ("type", VStr "raw"); ("sample_rate", VNum 16000);
                         ("encoding", VStr "pcm_s16le") ]) ]) ].
Proof.
  intros Hroom Hcode c req. subst c req.
  unfold on_connection. apply Nat.leb_gt in Hroom.
  unfold MAX_CONCURRENT_SESSIONS. rewrite Hroom.
  cbn [url]. rewrite (supported_code_selected code Hcode).
  cbn [setupSpeechmatics set_language set_speechmaticsWs fst snd step].
  unfold on_upstream, on_session. cbn [sessions]. rewrite lookup_insert_eq.
  reflexivity.
Qed.

(** X8: whatever the request URL, the language of the session is one of
    the eleven codes or a value inherited from [Object.prototype]; the
    parsing never throws, so the [catch] is never taken. *)
Theorem language_is_supported_or_inherited url :
  ∃ v, parse_language url = Normal v ∧
       ((∃ code, code ∈ (fst <$> SUPPORTED_LANGUAGES) ∧ v = VStr code) ∨
        (∃ name, assoc name Object_prototype = Some v)).
Proof.
  assert (Hdefault : ∃ code, code ∈ (fst <$> SUPPORTED_LANGUAGES) ∧ VStr "ar" = VStr code).
  { exists "ar". split; [apply list_elem_of_here | done]. }
  assert (Hkey : ∀ key,
    (∃ code, code ∈ (fst <$> SUPPORTED_LANGUAGES) ∧ supported_or_default key = VStr code) ∨
    (∃ name, assoc name Object_prototype = Some (supported_or_default key))).
  { intros key. destruct (assoc key SUPPORTED_LANGUAGES) as [v|] eqn:Hown.
    - left. unfold supported_or_default, get_own_or_inherited. rewrite Hown.
      cbn in Hown. repeat case_match; simplify_eq; cbn;
        eexists; (split; [| reflexivity]);
        repeat first [apply list_elem_of_here | apply list_elem_of_further].
    - destruct (assoc key Object_prototype) as [v|] eqn:Hproto.
      + right. exists key. by rewrite (proj1 (inherited_names_are_selected key v Hproto)).
      + left. by rewrite (unknown_name_defaults key Hown Hproto). }
  unfold parse_language, URLSearchParams; cbn.
  match goal with |- context [JS.or ?a ?b] => destruct (JS.or a b) end; eauto.
Qed.


Lemma repeated_key_run req n w :
  (activeSessions w = ∅ ∨ ∃ c, activeSessions w = {[sec_websocket_key req := c]}) →
  let w' := (run (replicate n (Connection req (Normal tt))) w).1 in
  connections w' = connections w + n ∧
  (activeSessions w' = ∅ ∨ ∃ c, activeSessions w' = {[sec_websocket_key req := c]}) ∧
  (0 < n → size (activeSessions w') = 1) ∧
  (∀ c, c < connections w → sessions w' !! c = sessions w !! c) ∧
  (∀ c, connections w ≤ c < connections w + n →
     ∃ s, sessions w' !! c = Some s ∧ id s = sec_websocket_key req ∧
          closed s = false ∧ pingInterval s = true).
Proof.
  revert w. induction n as [| n IH]; intros w Hreg; cbn [replicate run].
  - cbn. split_and!; [lia | done | lia | done | lia].
  - assert (Hroom : (MAX_CONCURRENT_SESSIONS <=? size (activeSessions w)) = false).
    { apply Nat.leb_gt. unfold MAX_CONCURRENT_SESSIONS.
      destruct Hreg as [-> | [c ->]];
        [rewrite map_size_empty | rewrite map_size_singleton]; lia. }
    cbn [step]. unfold on_connection. rewrite Hroom.
    destruct (parse_language (url req)) as [l | err];
      cbn [setupSpeechmatics set_language set_speechmaticsWs id clientWs speechmaticsWs
           closed audioReceived pingInterval language fst snd].
    all: match goal with
         | |- context [run _ ?w1] =>
             specialize (IH w1); destruct (run (replicate n (Connection req (Normal tt))) w1)
               as [w2 effects2] eqn:Hrun
         end; cbn [fst snd activeSessions sessions connections] in *.
    all: destruct IH as (Hn & Hshape & Hsize & Hold & Hnew);
      [ right; destruct Hreg as [-> | [c ->]];
          [ rewrite insert_empty | rewrite insert_singleton_eq ]; eauto | ].
    all: split_and!; [lia | done | | |].
    all: try (intros _; destruct n;
              [ cbn in Hrun; simplify_eq; cbn;
                destruct Hreg as [-> | [c ->]];
                  [ rewrite insert_empty | rewrite insert_singleton_eq ];
                  apply map_size_singleton
              | apply Hsize; lia ]).
    all: try (intros c Hc; rewrite Hold by lia; rewrite lookup_insert_ne by lia; done).
    all: intros c Hc; destruct (decide (c = connections w)) as [-> | Hne];
      [ rewrite Hold by lia; rewrite lookup_insert_eq; eauto
      | apply Hnew; lia ].
Qed.

(** X9: the cap counts keys, not connections: after any number of
    connections that carry the same [sec-websocket-key] the registry holds
    one entry, and every one of these sessions is open with its timer
    armed. *)
Theorem one_key_admits_any_number req n :
  let w := (run (replicate (S n) (Connection req (Normal tt))) init).1 in
  size (activeSessions w) = 1 ∧
  ∀ c, c ≤ n →
    ∃ s, sessions w !! c = Some s ∧ id s = sec_websocket_key req ∧
         closed s = false ∧ pingInterval s = true.
Proof.
  destruct (repeated_key_run req (S n) init) as (_ & _ & Hsize & _ & Hnew); [by left |].
  split; [apply Hsize; lia |].
  intros c Hc. apply Hnew. cbn. lia.
Qed.

(** X17: a tick of the timer pings the client exactly when the session
    is not closed and the client socket is open, and changes nothing. *)
Theorem ping_reaches_open_clients_only events c state :
  let w := (run events init).1 in
  step (PingTick c state) w =
    (w, match sessions w !! c with
        | Some s => if negb (closed s) && is_OPEN state then [ClientPing c] else []
        | None => []
        end).
Proof.
  intros w. destruct (run_sound events init sound_init) as (Hwf & Hco & _).
  fold w in Hwf, Hco. cbn [step]. unfold on_session.
  destruct (sessions w !! c) as [s|] eqn:Hs; [| done].
  destruct (Hwf c s Hs) as [_ Hsock]. destruct (Hco c s Hs) as [Hping _].
  rewrite Hping. unfold ping. rewrite Hsock.
  destruct (closed s); cbn [negb andb]; [by rewrite store_same |].
  destruct (is_OPEN state); by rewrite store_same.
Qed.

End Reachable.

(** ** The batch endpoint and the health report *)

Lemma status_requests_app a b :
  status_requests (a ++ b) = status_requests a + status_requests b.
Proof. unfold status_requests. by rewrite List.filter_app, length_app. Qed.

Lemma slept_app a b : slept (a ++ b) = (slept a + slept b)%Z.
Proof. induction a as [| [] a IH]; cbn [slept app]; lia. Qed.

Lemma poll_once_calls attempts p :
  status_requests (poll_once attempts p).2 = 1 ∧
  slept (poll_once attempts p).2 = delay attempts.
Proof.
  unfold poll_once. repeat case_match; cbn; split; try done; lia.
Qed.

Lemma poll_once_delivered attempts p t :
  delivered p = Some t → (poll_once attempts p).1 = Break t.
Proof.
  unfold delivered, poll_once. repeat case_match; intros; by simplify_eq.
Qed.

Lemma on_poll_error_early attempts m :
  attempts < maxAttempts - 1 → on_poll_error attempts m = Next.
Proof.
  intros Hlt. unfold on_poll_error.
  destruct (Nat.eqb_spec attempts (maxAttempts - 1)); [lia | done].
Qed.

Lemma poll_once_retry attempts p :
  delivered p = None → attempts < maxAttempts - 1 → (poll_once attempts p).1 = Next.
Proof.
  unfold delivered, poll_once. intros Hnone Hlt.
  repeat case_match; simplify_eq; cbn; try done; by apply on_poll_error_early.
Qed.

Lemma poll_once_last attempts p :
  delivered p = None →
  (poll_once attempts p).1 = Next ∨
  ∃ m, (poll_once attempts p).1 =
         Raise (new_Error (String.append "Failed to get job status: " m)).
Proof.
  unfold delivered, poll_once, on_poll_error. intros Hnone.
  repeat case_match; simplify_eq; cbn; eauto.
Qed.

Lemma delay_bounds attempts : (3000 ≤ delay attempts ≤ 30000)%Z.
Proof.
  unfold delay, baseDelay.
  assert (0 < 2 ^ Z.of_nat attempts)%Z by (apply Z.pow_pos_nonneg; lia). lia.
Qed.

Lemma budget_nonneg remaining attempts : (0 ≤ budget remaining attempts)%Z.
Proof.
  revert attempts. induction remaining as [| r IH]; intros a; cbn [budget]; [lia |].
  pose proof (delay_bounds a). specialize (IH (S a)). lia.
Qed.

Lemma poll_loop_bounded remaining attempts replies t :
  status_requests (poll_loop remaining attempts replies t).2 ≤ remaining ∧
  (0 ≤ slept (poll_loop remaining attempts replies t).2 ≤ budget remaining attempts)%Z.
Proof.
  revert attempts. induction remaining as [| r IH]; intros a; cbn [poll_loop budget].
  - cbn. lia.
  - destruct (poll_once_calls a (replies a)) as [Hreq Hsleep].
    pose proof (delay_bounds a). pose proof (budget_nonneg r (S a)).
    destruct (poll_once a (replies a)) as [flow calls]; cbn [fst snd] in *.
    destruct flow; cbn [snd]; try lia.
    specialize (IH (S a)).
    destruct (poll_loop r (S a) replies t) as [result calls']; cbn [fst snd] in *.
    rewrite status_requests_app, slept_app. lia.
Qed.

(** The rounds run until the first that hands over a transcript. *)
Lemma poll_loop_delivers remaining attempts replies t0 k t :
  attempts ≤ k < attempts + remaining →
  attempts + remaining ≤ maxAttempts →
  (∀ j, attempts ≤ j < k → delivered (replies j) = None) →
  delivered (replies k) = Some t →
  (poll_loop remaining attempts replies t0).1 = inr t ∧
  status_requests (poll_loop remaining attempts replies t0).2 = S (k - attempts).
Proof.
  revert attempts. induction remaining as [| r IH]; intros a Hk Hmax Hnone Hsome; [lia |].
  cbn [poll_loop].
  destruct (poll_once_calls a (replies a)) as [Hreq _].
  destruct (decide (a = k)) as [-> | Hne].
  - pose proof (poll_once_delivered k _ _ Hsome) as Hflow.
    destruct (poll_once k (replies k)) as [flow calls]; cbn [fst snd] in *. subst flow.
    cbn [fst snd]. split; [done | lia].
  - pose proof (poll_once_retry a (replies a) (Hnone a ltac:(lia))) as Hflow.
    unfold maxAttempts in *.
    destruct (poll_once a (replies a)) as [flow calls]; cbn [fst snd] in *.
    rewrite Hflow by lia.
    destruct (IH (S a) ltac:(lia) ltac:(lia) ltac:(intros; apply Hnone; lia) Hsome)
      as [Hres Hcount].
    destruct (poll_loop r (S a) replies t0) as [result calls']; cbn [fst snd] in *.
    rewrite status_requests_app. split; [done | lia].
Qed.

(** With no transcript in any round the loop runs all its rounds; only
    the last one can raise. *)
Lemma poll_loop_exhausted remaining attempts replies t0 :
  attempts + remaining = maxAttempts →
  (∀ j, attempts ≤ j < maxAttempts → delivered (replies j) = None) →
  status_requests (poll_loop remaining attempts replies t0).2 = remaining ∧
  slept (poll_loop remaining attempts replies t0).2 = budget remaining attempts ∧
  match remaining with
  | 0 => (poll_loop remaining attempts replies t0).1 = inr t0
  | S _ =>
      (poll_loop remaining attempts replies t0).1 =
        match (poll_once (maxAttempts - 1) (replies (maxAttempts - 1))).1 with
        | Raise error => inl error
        | _ => inr t0
        end
  end.
Proof.
  revert attempts. induction remaining as [| r IH]; intros a Hsum Hnone;
    cbn [poll_loop budget]; [done |].
  destruct (poll_once_calls a (replies a)) as [Hreq Hsleep].
  destruct r as [| r].
  - assert (a = maxAttempts - 1) as -> by lia.
    destruct (poll_once_last (maxAttempts - 1) (replies (maxAttempts - 1))
                (Hnone (maxAttempts - 1) ltac:(unfold maxAttempts; lia)))
      as [Hflow | [m Hflow]];
      destruct (poll_once (maxAttempts - 1) (replies (maxAttempts - 1))) as [flow calls];
      cbn [fst snd] in *; subst flow; cbn [poll_loop fst snd budget];
      rewrite ?app_nil_r; (split; [| split]); first [lia | done].
  - pose proof (poll_once_retry a (replies a) (Hnone a ltac:(lia)) ltac:(lia)) as Hflow.
    destruct (poll_once a (replies a)) as [flow calls]; cbn [fst snd] in *. subst flow.
    destruct (IH (S a) ltac:(lia) ltac:(intros; apply Hnone; lia)) as (Hc & Hs & Hres).
    destruct (poll_loop (S r) (S a) replies t0) as [result calls']; cbn [fst snd] in *.
    rewrite status_requests_app, slept_app. split_and!; [lia | lia | done].
Qed.

Lemma poll_loop_error remaining attempts replies t0 error :
  (poll_loop remaining attempts replies t0).1 = inl error → response error = None.
Proof.
  revert attempts. induction remaining as [| r IH]; intros a; cbn [poll_loop]; [done |].
  destruct (poll_once a (replies a)) as [flow calls] eqn:Hflow.
  destruct flow as [t | | e]; cbn [fst]; [done | |].
  - specialize (IH (S a)).
    destruct (poll_loop r (S a) replies t0) as [result calls']; cbn [fst] in *. done.
  - intros [= ->]. apply (f_equal fst) in Hflow. cbn [fst] in Hflow.
    unfold poll_once, on_poll_error in Hflow.
    repeat case_match; cbn [fst] in Hflow; by simplify_eq.
Qed.

Lemma poll_job_error replies error :
  (poll_job replies).1 = inl error → response error = None.
Proof.
  unfold poll_job.
  pose proof (poll_loop_error maxAttempts 0 replies VUndefined) as Hloop.
  destruct (poll_loop maxAttempts 0 replies VUndefined) as [[e | t] calls]; cbn [fst] in *.
  - intros [= <-]. by apply Hloop.
  - case_match; cbn [fst]; [| done]. by intros [= <-].
Qed.

Lemma poll_job_calls replies :
  (poll_job replies).2 = (poll_loop maxAttempts 0 replies VUndefined).2.
Proof.
  unfold poll_job.
  destruct (poll_loop maxAttempts 0 replies VUndefined) as [[e | t] calls]; [done |].
  by case_match.
Qed.

Lemma transcribe_calls language replies :
  (transcribe true language Created replies).2 =
    PostJob (job_config language) :: (poll_loop maxAttempts 0 replies VUndefined).2.
Proof.
  unfold transcribe. cbn [negb]. rewrite <- poll_job_calls.
  destruct (poll_job replies) as [[e | t] calls]; done.
Qed.

Lemma budget_total : budget maxAttempts 0 = 825000%Z.
Proof. reflexivity. Qed.

(** X10: the sleep before a poll is 3000 ms doubled with every round up
    to the fourth and 30000 ms from the fifth on; it never shrinks. *)
Theorem delay_doubles_then_saturates attempts :
  (attempts ≤ 3 → delay attempts = (3000 * 2 ^ Z.of_nat attempts)%Z) ∧
  (4 ≤ attempts → delay attempts = 30000%Z) ∧
  (delay attempts ≤ delay (S attempts))%Z.
Proof.
  unfold delay, baseDelay.
  assert (Hmono : (2 ^ Z.of_nat attempts ≤ 2 ^ Z.of_nat (S attempts))%Z)
    by (apply Z.pow_le_mono_r; lia).
  split_and!.
  - intros Hle. assert (2 ^ Z.of_nat attempts ≤ 2 ^ 3)%Z by (apply Z.pow_le_mono_r; lia).
    change (2 ^ 3)%Z with 8%Z in *. lia.
  - intros Hge. assert (2 ^ 4 ≤ 2 ^ Z.of_nat attempts)%Z by (apply Z.pow_le_mono_r; lia).
    change (2 ^ 4)%Z with 16%Z in *. lia.
  - lia.
Qed.

(** X11: whatever the upstream answers, one request asks for the job
    status at most 30 times and sleeps at most 825000 ms in all. *)
Theorem polling_is_bounded has_file language creation replies :
  status_requests (transcribe has_file language creation replies).2 ≤ 30 ∧
  (0 ≤ slept (transcribe has_file language creation replies).2 ≤ 825000)%Z.
Proof.
  destruct has_file; [| cbn; lia].
  destruct creation; [cbn; lia | cbn; lia |].
  rewrite transcribe_calls.
  destruct (poll_loop_bounded maxAttempts 0 replies VUndefined) as [Hreq Hsleep].
  rewrite budget_total in Hsleep. unfold maxAttempts in *.
  change (PostJob ?c :: ?l) with ([PostJob c] ++ l).
  rewrite status_requests_app, slept_app. cbn [status_requests slept List.filter length].
  lia.
Qed.

(** X12: the first round that gets status [done] and the transcript
    ends the polling after that many status requests, whatever failed
    before; the answer is 200 with the transcript as it came, but the
    time-out error with status 500 when the transcript is falsy. *)
Theorem first_transcript_is_returned language replies k t :
  k < 30 →
  (∀ j, j < k → delivered (replies j) = None) →
  delivered (replies k) = Some t →
  (truthy t = true →
   (transcribe true language Created replies).1 =
     mkResponse (VNum 200) (JSON_object [("transcript", t)])) ∧
  (truthy t = false →
   (transcribe true language Created replies).1 =
     mkResponse (VNum 500)
       (VObj [ ("error", VStr "Failed to get transcript (timed out)");
               ("details", VNull) ])) ∧
  status_requests (transcribe true language Created replies).2 = S k.
Proof.
  intros Hk Hnone Hsome.
  destruct (poll_loop_delivers maxAttempts 0 replies VUndefined k t) as [Hres Hcount];
    [unfold maxAttempts; lia | done | intros; apply Hnone; lia | done |].
  rewrite transcribe_calls.
  change (PostJob ?c :: ?l) with ([PostJob c] ++ l).
  rewrite status_requests_app, Hcount. cbn [status_requests List.filter length].
  unfold transcribe, poll_job. cbn [negb].
  destruct (poll_loop maxAttempts 0 replies VUndefined) as [result calls];
    cbn [fst] in Hres; subst result.
  split_and!; [intros -> | intros -> | lia]; reflexivity.
Qed.

(** X13: when no round gets a transcript, all 30 rounds are run, with
    825000 ms of sleep, and the answer has status 500 and no details.
    Its error is decided by the last round alone: [Failed to get job
    status: ] followed by the message of the rejected status or
    transcript request, or by the string detail of a job that has failed
    ([Transcription failed] when it has none), and the time-out error
    when the last round finds the job neither done nor failed. *)
Theorem without_transcript_all_rounds_run language replies :
  (∀ j, j < 30 → delivered (replies j) = None) →
  let answer := transcribe true language Created replies in
  let failure (text : string) := VObj [("error", VStr text); ("details", VNull)] in
  let last := replies 29 in
  status answer.1 = VNum 500 ∧
  status_requests answer.2 = 30 ∧
  slept answer.2 = 825000%Z ∧
  (body answer.1 = failure "Failed to get transcript (timed out)" ∨
   ∃ m, body answer.1 = failure (String.append "Failed to get job status: " m)) ∧
  (∀ m, status_reply last = Throw m →
     body answer.1 = failure (String.append "Failed to get job status: " m)) ∧
  (∀ data, status_reply last = Normal data →
     let jobStatus := get_opt (get_opt data "job") "status" in
     (∀ m, is_str jobStatus "done" = true → transcript_reply last = Throw m →
        body answer.1 = failure (String.append "Failed to get job status: " m)) ∧
     (∀ detail, is_str jobStatus "failed" = true →
        get_opt data "detail" = VStr detail → detail ≠ EmptyString →
        body answer.1 = failure (String.append "Failed to get job status: " detail)) ∧
     (is_str jobStatus "failed" = true → truthy (get_opt data "detail") = false →
        body answer.1 = failure "Failed to get job status: Transcription failed") ∧
     (is_str jobStatus "done" = false → is_str jobStatus "failed" = false →
        body answer.1 = failure "Failed to get transcript (timed out)")).
Proof.
  intros Hnone answer failure last.
  destruct (poll_loop_exhausted maxAttempts 0 replies VUndefined) as (Hcount & Hsleep & Hres);
    [done | intros; apply Hnone; unfold maxAttempts in *; lia |].
  rewrite budget_total in Hsleep.
  cbn [maxAttempts] in Hres. change (maxAttempts - 1) with 29 in Hres. fold last in Hres.
  assert (Hbody : body answer.1 =
            match (poll_once 29 last).1 with
            | Raise error => failure (message error)
            | _ => failure "Failed to get transcript (timed out)"
            end ∧ status answer.1 = VNum 500).
  { pose proof (poll_once_last 29 last (Hnone 29 ltac:(lia))) as Hlast.
    subst answer. unfold transcribe, poll_job. cbn [negb].
    destruct (poll_loop maxAttempts 0 replies VUndefined) as [result calls];
      cbn [fst] in Hres; subst result.
    destruct Hlast as [Hflow | [m Hflow]]; rewrite Hflow; done. }
  destruct Hbody as [Hbody Hstatus].
  assert (Hcalls : answer.2 =
            [PostJob (job_config language)] ++ (poll_loop maxAttempts 0 replies VUndefined).2)
    by apply transcribe_calls.
  split_and!.
  - done.
  - rewrite Hcalls, status_requests_app, Hcount. reflexivity.
  - rewrite Hcalls, slept_app, Hsleep. reflexivity.
  - rewrite Hbody.
    destruct (poll_once_last 29 last (Hnone 29 ltac:(lia))) as [Hflow | [m Hflow]];
      rewrite Hflow; [by left | right; by exists m].
  - intros m Hthrow. rewrite Hbody. unfold poll_once. by rewrite Hthrow.
  - intros data Hdata jobStatus. rewrite Hbody. unfold poll_once. rewrite Hdata.
    fold jobStatus. split_and!.
    + intros m -> ->. done.
    + intros detail Hfailed Hdetail Hne.
      destruct (is_str jobStatus "done") eqn:Hdone.
      { rewrite (is_str_exclusive jobStatus "done" "failed" ltac:(discriminate) Hdone)
          in Hfailed. discriminate. }
      rewrite Hfailed, Hdetail. unfold JS.or. cbn [truthy].
      destruct detail; [done | reflexivity].
    + intros Hfailed Hfalsy.
      destruct (is_str jobStatus "done") eqn:Hdone.
      { rewrite (is_str_exclusive jobStatus "done" "failed" ltac:(discriminate) Hdone)
          in Hfailed. discriminate. }
      rewrite Hfailed. unfold JS.or. rewrite Hfalsy. reflexivity.
    + intros -> ->. done.
Qed.

(** X14: a job that Speechmatics reports as [failed] is polled on to
    the last round: its detail is reported only after 30 status requests,
    as [Failed to get job status: detail] with status 500. *)
Theorem failed_job_is_reported_after_the_last_round language replies data detail :
  (∀ j, j < 29 → delivered (replies j) = None) →
  status_reply (replies 29) = Normal data →
  get_opt (get_opt data "job") "status" = VStr "failed" →
  get_opt data "detail" = VStr detail →
  detail ≠ EmptyString →
  (transcribe true language Created replies).1 =
    mkResponse (VNum 500)
      (VObj [ ("error", VStr (String.append "Failed to get job status: " detail));
              ("details", VNull) ]) ∧
  status_requests (transcribe true language Created replies).2 = 30 ∧
  slept (transcribe true language Created replies).2 = 825000%Z.
Proof.
  intros Hnone Hlast Hstatus Hdetail Hne.
  assert (Hflow : (poll_once (maxAttempts - 1) (replies (maxAttempts - 1))).1 =
                  Raise (new_Error (String.append "Failed to get job status: " detail))).
  { unfold poll_once. change (maxAttempts - 1) with 29. rewrite Hlast, Hstatus, Hdetail.
    cbn. unfold JS.or. cbn [truthy]. destruct detail; [done | reflexivity]. }
  assert (Hall : ∀ j, j < 30 → delivered (replies j) = None).
  { intros j Hj. destruct (decide (j = 29)) as [-> | ?]; [| apply Hnone; lia].
    unfold delivered. by rewrite Hlast, Hstatus. }
  destruct (poll_loop_exhausted maxAttempts 0 replies VUndefined) as (Hcount & Hsleep & Hres);
    [done | intros; apply Hall; unfold maxAttempts in *; lia |].
  rewrite budget_total in Hsleep.
  rewrite transcribe_calls.
  change (PostJob ?c :: ?l) with ([PostJob c] ++ l).
  rewrite status_requests_app, slept_app, Hcount, Hsleep.
  cbn [status_requests slept List.filter length].
  cbn [maxAttempts] in Hres. rewrite Hflow in Hres.
  unfold transcribe, poll_job. cbn [negb].
  destruct (poll_loop maxAttempts 0 replies VUndefined) as [result calls];
    cbn [fst] in Hres; subst result. done.
Qed.

(** X15: the answer has status 200, 400 or 500, except when creating
    the job is rejected with an HTTP status, which is passed on; an error
    of the polling never carries the upstream status. *)
Theorem upstream_status_only_from_job_creation has_file language creation replies :
  status (transcribe has_file language creation replies).1 ∈ [VNum 200; VNum 400; VNum 500] ∨
  ∃ error upstream_status data,
    creation = Rejected error ∧ response error = Some (upstream_status, data) ∧
    truthy upstream_status = true ∧
    status (transcribe has_file language creation replies).1 = upstream_status.
Proof.
  unfold transcribe.
  destruct has_file; cbn [negb]; [| left; cbn; repeat first [apply list_elem_of_here | apply list_elem_of_further]].
  destruct creation as [error | m |].
  - destruct (response error) as [[st data]|] eqn:Hresp.
    + destruct (truthy st) eqn:Htruthy.
      * right. exists error, st, data. split_and!; try done.
        cbn. unfold error_response. rewrite Hresp. cbn. unfold JS.or. by rewrite Htruthy.
      * left. cbn. unfold error_response. rewrite Hresp. cbn. unfold JS.or.
        rewrite Htruthy. repeat first [apply list_elem_of_here | apply list_elem_of_further].
    + left. cbn. unfold error_response. rewrite Hresp. cbn. repeat first [apply list_elem_of_here | apply list_elem_of_further].
  - left. cbn. repeat first [apply list_elem_of_here | apply list_elem_of_further].
  - left. pose proof (poll_job_error replies) as Herr.
    destruct (poll_job replies) as [[e | t] calls]; cbn [fst snd] in *.
    + unfold error_response. rewrite (Herr e eq_refl). cbn. repeat first [apply list_elem_of_here | apply list_elem_of_further].
    + cbn. repeat first [apply list_elem_of_here | apply list_elem_of_further].
Qed.

Section Health.
Context {runtime : Runtime}.

(** X16: the health report shows the size of the registry, which is
    never more than the [maxSessions] of 2 it shows beside it. *)
Theorem health_reports_at_most_the_cap events :
  health (run events init).1 =
    VObj [ ("status", VStr "ok");
           ("activeSessions", VNum (Z.of_nat (size (activeSessions (run events init).1))));
           ("maxSessions", VNum 2) ] ∧
  size (activeSessions (run events init).1) ≤ 2.
Proof.
  split; [reflexivity |].
  pose proof (run_registry_bound events). unfold MAX_CONCURRENT_SESSIONS in *. lia.
Qed.

End Health.

(** ** More concrete runs *)

Section MoreExamples.

#[local] Existing Instance sample_runtime.

(** X1: the registry entry of the first client. *)
Lemma registry_entries_are_live_witness :
  ∃ s, sessions one_session !! 0 = Some s ∧
       id s = sample_key ∧ clientWs s = 0 ∧ closed s = false ∧ pingInterval s = true.
Proof.
  apply (registry_entries_are_live [Connection sample_request (Normal tt)] sample_key 0).
  reflexivity.
Defined.

(** X2: the session of a client that has gone. *)
Lemma sessions_stay_coherent_witness :
  pingInterval closed_session = negb (closed closed_session) ∧
  (closed closed_session = true →
   speechmaticsWs closed_session ≠ Some OPEN ∧
   speechmaticsWs closed_session ≠ Some CONNECTING).
Proof.
  apply (sessions_stay_coherent closed_down 0 closed_session). reflexivity.
Defined.

(** X3: what happens after the first client has gone is the business of
    the second. *)
Lemma closed_session_is_silent_witness :
  effect_connection
    (ClientSend 1
       (VObj [ ("type", VStr "error");
               ("message", VStr "Failed to setup Speechmatics connection");
               ("details", VStr "connect failed") ])) ≠ Some 0.
Proof.
  apply (closed_session_is_silent closed_down late_failure 0 closed_session);
    [reflexivity | reflexivity | apply list_elem_of_here].
Defined.

(** X4: audio bytes that come from Speechmatics are not JSON. *)
Lemma unrecognised_messages_are_ignored_witness :
  speechmatics_on_message pcm_frame streaming_session = (streaming_session, []).
Proof.
  apply (proj1 (unrecognised_messages_are_ignored streaming_session pcm_frame)).
  reflexivity.
Defined.

(** X5: Speechmatics rejects the audio. *)
Lemma upstream_errors_are_not_fatal_witness :
  speechmatics_on_message (runtime := second_runtime) (Str upstream_error_text)
    streaming_session =
    (streaming_session,
     [ClientSend 0
        (VObj [ ("type", VStr "error"); ("message", VStr "Invalid audio");
                ("details", VObj upstream_error) ])]).
Proof.
  refine (proj1 (upstream_errors_are_not_fatal (runtime := second_runtime)
                   streaming_session (Str upstream_error_text) upstream_error
                   "Error" "error" "Speechmatics error" eq_refl eq_refl _ eq_refl)
                "Invalid audio" eq_refl _).
  - apply list_elem_of_here.
  - discriminate.
Defined.

(** X6: the partial transcript [hello]. *)
Lemma upstream_listeners_only_notify_witness :
  length (speechmatics_on_message (Str partial_hello_text) streaming_session).2 ≤ 1 ∧
  ∀ ef, ef ∈ (speechmatics_on_message (Str partial_hello_text) streaming_session).2 →
        ∃ v, ef = ClientSend (clientWs streaming_session) v.
Proof.
  apply (upstream_listeners_only_notify streaming_session (Str partial_hello_text)
           1000 None "socket hang up").
  apply list_elem_of_here.
Defined.

(** X7: the first client of the server asks for French. *)
Lemma supported_language_is_announced_witness :
  (step (UpstreamOpen 0)
     (on_connection (mkRequest sample_key "/?lang=fr") (Normal tt) init).1).2 !! 0 =
    Some (UpstreamSend 0
            (Json (VObj
               [ ("message", VStr "StartRecognition");
                 ("transcription_config",
                   VObj [ ("language", VStr "fr");
                          ("diarization", VStr "none");
                          ("operating_point", VStr "enhanced");
                          ("max_delay_mode", VStr "flexible");
                          ("max_delay", VNum 1);
                          ("enable_partials", VBool true);
                          ("enable_entities", VBool true) ]);
                 ("audio_format",
                   VObj [ ("type", VStr "raw"); ("sample_rate", VNum 16000);
                          ("encoding", VStr "pcm_s16le") ]) ]))).
Proof.
  assert (Hroom : size (activeSessions init) < 2) by (vm_compute; lia).
  assert (Hcode : "fr" ∈ (fst <$> SUPPORTED_LANGUAGES))
    by (cbn; repeat first [apply list_elem_of_here | apply list_elem_of_further]).
  exact (f_equal (fun effects => effects !! 0)
           (supported_language_is_announced init sample_key "fr" Hroom Hcode)).
Defined.

(** X12: the job is done at the third poll. *)
Lemma first_transcript_is_returned_witness :
  (transcribe true (VStr "en") Created done_on_third).1 =
    mkResponse (VNum 200) (VObj [("transcript", sample_transcript)]) ∧
  status_requests (transcribe true (VStr "en") Created done_on_third).2 = 3.
Proof.
  destruct (first_transcript_is_returned (VStr "en") done_on_third 2 sample_transcript)
    as (Hok & _ & Hcount).
  - lia.
  - intros [| [| j]] Hj; [reflexivity | reflexivity | lia].
  - reflexivity.
  - split; [apply Hok; reflexivity | exact Hcount].
Defined.

(** X13: the job never leaves the state [running]. *)
Lemma without_transcript_all_rounds_run_witness :
  status (transcribe true VUndefined Created (fun _ => running_poll)).1 = VNum 500 ∧
  status_requests (transcribe true VUndefined Created (fun _ => running_poll)).2 = 30 ∧
  slept (transcribe true VUndefined Created (fun _ => running_poll)).2 = 825000%Z ∧
  body (transcribe true VUndefined Created (fun _ => running_poll)).1 =
    VObj [ ("error", VStr "Failed to get transcript (timed out)"); ("details", VNull) ].
Proof.
  destruct (without_transcript_all_rounds_run VUndefined (fun _ => running_poll))
    as (Hstatus & Hcount & Hsleep & _ & _ & Hlast).
  - intros j Hj. reflexivity.
  - destruct (Hlast _ eq_refl) as (_ & _ & _ & Hpending).
    split_and!; [exact Hstatus | exact Hcount | exact Hsleep |].
    apply Hpending; reflexivity.
Defined.

(** X14: the job has failed from the first poll on. *)
Lemma failed_job_is_reported_after_the_last_round_witness :
  (transcribe true (VStr "en") Created (fun _ => failed_poll)).1 =
    mkResponse (VNum 500)
      (VObj [ ("error", VStr "Failed to get job status: Invalid audio");
              ("details", VNull) ]) ∧
  status_requests (transcribe true (VStr "en") Created (fun _ => failed_poll)).2 = 30 ∧
  slept (transcribe true (VStr "en") Created (fun _ => failed_poll)).2 = 825000%Z.
Proof.
  apply (failed_job_is_reported_after_the_last_round (VStr "en") (fun _ => failed_poll)
           failed_job "Invalid audio").
  - intros j Hj. reflexivity.
  - reflexivity.
  - reflexivity.
  - reflexivity.
  - discriminate.
Defined.

End MoreExamples.

(** * What follows a failure of the Speechmatics side *)

Section Aftermath.

Context {runtime : Runtime}.

(** Without a Speechmatics socket a session's listeners can only ping
    the client, clear the timer and delete the registry key. *)
Lemma handle_without_upstream e s registry ef :
  speechmaticsWs s = None →
  ef ∈ (handle e s registry).2 →
  ef = ClientPing (clientWs s) ∨ ef = TimerCleared (clientWs s) ∨
  effect_connection ef = None.
Proof.
  destruct e;
    unfold handle, client_on_message, client_on_close, client_on_error,
      clearInterval, Map_delete, ping;
    destruct s as [k sock up cl au pi la]; cbn; intros ->; cbn;
    repeat case_match; cbn;
    rewrite ?elem_of_cons, ?elem_of_nil; intros Hin;
    repeat (destruct Hin as [-> | Hin]); try done; cbn; auto.
Qed.

Lemma step_without_upstream e w c s ef :
  well_formed w → sessions w !! c = Some s → speechmaticsWs s = None →
  ef ∈ (step e w).2 → effect_connection ef = Some c →
  ef = ClientPing c ∨ ef = TimerCleared c.
Proof.
  intros Hwf Hs Hnone Hin Hc.
  destruct (Hwf _ _ Hs) as [Hlt Hsock].
  destruct (target e) as [c'|] eqn:Ht.
  - destruct (sessions w !! c') as [s'|] eqn:Hs';
      [| rewrite (step_no_listener e w c' Ht Hs') in Hin; by apply elem_of_nil in Hin].
    rewrite (step_handle e w c' s' Ht Hs') in Hin. cbn [snd] in Hin.
    destruct (decide (c' = c)) as [-> | Hne].
    + simplify_eq.
      destruct (handle_without_upstream _ _ _ _ Hnone Hin) as [-> | [-> | Hno]];
        [by left | by right | congruence].
    + destruct (Hwf _ _ Hs') as [_ Hsock'].
      destruct (handle_effects_own _ _ _ _ Hin) as [Hno | Hown]; congruence.
  - destruct e; try discriminate. cbn [step] in Hin. unfold on_connection in Hin.
    case_match.
    + cbn in Hin. rewrite !elem_of_cons, elem_of_nil in Hin.
      destruct Hin as [-> | [-> | []]]; cbn in Hc; simplify_eq; lia.
    + match type of Hin with context [setupSpeechmatics ?ctor ?s0] =>
        assert (Hs0 : clientWs s0 = connections w) by (by repeat case_match);
        pose proof (setupSpeechmatics_fresh ctor s0) as Hnew;
        destruct (setupSpeechmatics ctor s0) as [s' effects]
      end.
      cbn [fst snd] in *.
      destruct Hnew as (_ & _ & _ & _ & Hown);
        [by repeat case_match | by repeat case_match |].
      rewrite (Hown _ Hin), Hs0 in Hc. simplify_eq. lia.
Qed.

Lemma run_without_upstream events w c s ef :
  well_formed w → sessions w !! c = Some s → speechmaticsWs s = None →
  ef ∈ (run events w).2 → effect_connection ef = Some c →
  ef = ClientPing c ∨ ef = TimerCleared c.
Proof.
  revert w s. induction events as [| e events IH]; intros w s Hwf Hs Hnone; cbn.
  - by rewrite elem_of_nil.
  - pose proof (step_without_upstream e w c s ef Hwf Hs Hnone) as Hnow.
    pose proof (step_well_formed e w Hwf) as Hwf1.
    destruct (step_evolves e w c s Hwf Hs) as (s1 & Hs1 & _ & _ & _ & _ & Hkeep).
    destruct (step e w) as [w1 effects1]; cbn [fst snd] in *.
    specialize (IH w1 s1 Hwf1 Hs1 (Hkeep Hnone)).
    destruct (run events w1) as [w2 effects2]; cbn [fst snd] in *.
    rewrite elem_of_app. intros [Hin | Hin]; eauto.
Qed.

(** Only the client's own [close] and [error] events close a session. *)
Lemma step_stays_open e w c s :
  well_formed w → sessions w !! c = Some s → closed s = false →
  e ≠ ClientClosed c → e ≠ ClientError c →
  ∃ s', sessions (step e w).1 !! c = Some s' ∧ closed s' = false.
Proof.
  intros Hwf Hs Hopen Hclose Herror.
  destruct (Hwf _ _ Hs) as [Hlt _].
  destruct (target e) as [c'|] eqn:Ht.
  - destruct (sessions w !! c') as [s'|] eqn:Hs';
      [| rewrite (step_no_listener e w c' Ht Hs'); eauto].
    rewrite (step_handle e w c' s' Ht Hs'). cbn [fst sessions].
    destruct (decide (c' = c)) as [-> | Hne].
    + simplify_eq. rewrite lookup_insert_eq. eexists; split; [done |].
      assert (Htd : is_teardown e = false).
      { destruct e; cbn in Ht |- *; simplify_eq; done. }
      destruct (handle_other e s (activeSessions w) Htd) as (Hsame & _). congruence.
    + rewrite lookup_insert_ne by done. eauto.
  - destruct (step_evolves e w c s Hwf Hs) as (s' & Hs' & _).
    destruct e; try discriminate. cbn [step] in *. unfold on_connection in *.
    case_match; cbn [fst sessions] in *; [simplify_eq; eauto |].
    destruct (setupSpeechmatics _ _) as [s0 effects]. cbn [fst sessions] in *.
    rewrite lookup_insert_ne in Hs' |- * by lia. eauto.
Qed.

Lemma run_stays_open events w c s :
  well_formed w → sessions w !! c = Some s → closed s = false →
  (∀ e, e ∈ events → e ≠ ClientClosed c ∧ e ≠ ClientError c) →
  ∃ s', sessions (run events w).1 !! c = Some s' ∧ closed s' = false.
Proof.
  revert w s. induction events as [| e events IH]; intros w s Hwf Hs Hopen Hev; cbn.
  - eauto.
  - destruct (Hev e ltac:(apply list_elem_of_here)) as [Hc He].
    destruct (step_stays_open e w c s Hwf Hs Hopen Hc He) as (s1 & Hs1 & Hopen1).
    pose proof (step_well_formed e w Hwf) as Hwf1.
    destruct (step e w) as [w1 effects1]; cbn [fst snd] in *.
    destruct (IH w1 s1 Hwf1 Hs1 Hopen1) as (s2 & Hs2 & Hopen2).
    { intros e' Hin. apply Hev. by apply list_elem_of_further. }
    destruct (run events w1) as [w2 effects2]; cbn [fst snd] in *. eauto.
Qed.

(** C6 (as the code has it): when [new WebSocket] throws, the client is
    sent one error event carrying the exception message, and the
    session is registered, not closed and without a Speechmatics socket.
    It never gets one, whatever happens afterwards; it is closed by
    nothing but the [close] or [error] event of its own client; and from
    then on the relay does nothing to this connection but ping the client
    and clear the timer: it sends the client no second event, does not
    close the client socket and writes nothing upstream. *)
Theorem setup_failure_is_reported_once before req message after :
  let w := (run before init).1 in
  size (activeSessions w) < 2 →
  let r := on_connection req (Throw message) w in
  let c := connections w in
  r.2 = [ClientSend c
           (VObj [ ("type", VStr "error");
                   ("message", VStr "Failed to setup Speechmatics connection");
                   ("details", VStr message) ])] ∧
  activeSessions r.1 !! sec_websocket_key req = Some c ∧
  (∃ s, sessions r.1 !! c = Some s ∧ closed s = false ∧ speechmaticsWs s = None) ∧
  (∃ s, sessions (run after r.1).1 !! c = Some s ∧ speechmaticsWs s = None) ∧
  ((∀ e, e ∈ after → e ≠ ClientClosed c ∧ e ≠ ClientError c) →
   ∃ s, sessions (run after r.1).1 !! c = Some s ∧ closed s = false) ∧
  (∀ ef, ef ∈ (run after r.1).2 → effect_connection ef = Some c →
         ef = ClientPing c ∨ ef = TimerCleared c).
Proof.
  intros w Hroom r c.
  destruct (setup_failure_first_state before req message after Hroom)
    as (Heffects & Hreg & (s & Hs & Hopen & Hnone) & Hlater).
  fold w r c in Heffects, Hreg, Hs, Hlater.
  assert (Hwf : well_formed r.1).
  { apply (step_well_formed (Connection req (Throw message)) w), run_well_formed. }
  split_and!; try done; [eauto | |].
  - intros Hev. by apply (run_stays_open after r.1 c s).
  - intros ef. by apply (run_without_upstream after r.1 c s).
Qed.

(** C5 (as the code has it): while a session is not closed and its
    Speechmatics socket is not yet closed, each [close] event of that
    socket sends the client one [speechmatics_disconnected] event with
    code and reason, and each [error] event one [error] event with the
    error message; a failure that the socket reports as [error] followed
    by [close] so reaches the client as two events, in that order.  The
    relay does not close the client socket, and the session stays
    registered, not closed, with its timer as it was. *)
Theorem upstream_loss_is_reported_per_event before c s r code reason message :
  sessions (run before init).1 !! c = Some s →
  closed s = false →
  speechmaticsWs s = Some r →
  r ≠ CLOSED →
  let w := (run before init).1 in
  let disconnected :=
    JSON_object [ ("type", VStr "speechmatics_disconnected");
                  ("message", VStr "Speechmatics connection closed");
                  ("code", VNum code);
                  ("reason", from_option (λ x, VStr (toString x)) VUndefined reason) ] in
  let failed :=
    VObj [ ("type", VStr "error");
           ("message", VStr "Speechmatics connection error");
           ("details", VStr message) ] in
  (run [UpstreamClosed c code reason] w).2 = [ClientSend c disconnected] ∧
  (run [UpstreamError c message] w).2 = [ClientSend c failed] ∧
  (run [UpstreamError c message; UpstreamClosed c code reason] w).2 =
    [ClientSend c failed; ClientSend c disconnected] ∧
  (let w' := (run [UpstreamError c message; UpstreamClosed c code reason] w).1 in
   activeSessions w' = activeSessions w ∧
   ∃ s', sessions w' !! c = Some s' ∧ closed s' = false ∧ pingInterval s' = pingInterval s).
Proof.
  intros Hs Hopen Hup Hr w disconnected failed.
  destruct (run_well_formed before c s Hs) as [_ Hsock]. fold w in Hs.
  assert (Hclose : ∀ x, closed x = false → clientWs x = c →
            speechmatics_on_close code reason x = (x, [ClientSend c disconnected])).
  { intros x Hx Hc. unfold speechmatics_on_close. rewrite Hx, Hc. cbn [negb].
    subst disconnected. by destruct reason. }
  assert (Herror : ∀ x, closed x = false → clientWs x = c →
            speechmatics_on_error message x = (x, [ClientSend c failed])).
  { intros x Hx Hc. unfold speechmatics_on_error. by rewrite Hx, Hc. }
  assert (Hallowed : match r with CLOSED => false | _ => true end = true)
    by (by destruct r).
  cbn [run step]. unfold on_upstream, on_session. rewrite Hs, Hup, Hallowed.
  rewrite Hclose, Herror by (by destruct s).
  cbn [fst snd store sessions activeSessions app]. rewrite lookup_insert_eq.
  cbn [speechmaticsWs set_speechmaticsWs].
  rewrite Hclose by (by destruct s).
  cbn [fst snd store sessions activeSessions app]. rewrite lookup_insert_eq.
  split_and!; try done. eexists; split; [done |]. by destruct s.
Qed.

End Aftermath.

Section AftermathExamples.

#[local] Existing Instance sample_runtime.

(** C5: the Speechmatics socket of a streaming client fails and then
    closes.  The client is told twice. *)
Lemma upstream_error_is_reported_twice :
  (run [UpstreamError 0 "socket hang up"; UpstreamClosed 0 1006 (Some (Buf EmptyString))]
     streaming).2 =
    [ ClientSend 0
        (VObj [ ("type", VStr "error");
                ("message", VStr "Speechmatics connection error");
                ("details", VStr "socket hang up") ]);
      ClientSend 0
        (VObj [ ("type", VStr "speechmatics_disconnected");
                ("message", VStr "Speechmatics connection closed");
                ("code", VNum 1006);
                ("reason", VStr EmptyString) ]) ].
Proof. reflexivity. Qed.

(** C5: Speechmatics closes the socket of a streaming client with code
    1000; or the socket fails and then closes. *)
Lemma upstream_loss_is_reported_per_event_witness :
  (run [UpstreamClosed 0 1000 (Some (Buf "bye"))] streaming).2 =
    [ClientSend 0
       (VObj [ ("type", VStr "speechmatics_disconnected");
               ("message", VStr "Speechmatics connection closed");
               ("code", VNum 1000);
               ("reason", VStr "bye") ])] ∧
  (run [UpstreamError 0 "socket hang up"; UpstreamClosed 0 1000 (Some (Buf "bye"))]
     streaming).2 =
    [ ClientSend 0
        (VObj [ ("type", VStr "error");
                ("message", VStr "Speechmatics connection error");
                ("details", VStr "socket hang up") ]);
      ClientSend 0
        (VObj [ ("type", VStr "speechmatics_disconnected");
                ("message", VStr "Speechmatics connection closed");
                ("code", VNum 1000);
                ("reason", VStr "bye") ]) ].
Proof.
  assert (Hopen : OPEN ≠ CLOSED) by discriminate.
  destruct (upstream_loss_is_reported_per_event
              [Connection sample_request (Normal tt); UpstreamOpen 0] 0 streaming_session
              OPEN 1000 (Some (Buf "bye")) "socket hang up" eq_refl eq_refl eq_refl Hopen)
    as (Hclose & _ & Hboth & _).
  split; [exact Hclose | exact Hboth].
Defined.

(** C6: the first connection of the server meets a constructor that
    throws.  As long as the client stays, the session is not closed, and
    the later events cause nothing on this connection but a ping. *)
Lemma setup_failure_is_reported_once_witness :
  size (activeSessions init) < 2 ∧
  (∃ s, sessions (run [UpstreamOpen 0; ClientMessage 0 pcm_frame; PingTick 0 OPEN]
                    (on_connection sample_request (Throw "connect failed") init).1).1 !! 0 =
          Some s ∧ speechmaticsWs s = None) ∧
  (∃ s, sessions (run [UpstreamOpen 0; ClientMessage 0 pcm_frame; PingTick 0 OPEN]
                    (on_connection sample_request (Throw "connect failed") init).1).1 !! 0 =
          Some s ∧ closed s = false) ∧
  (run [UpstreamOpen 0; ClientMessage 0 pcm_frame; PingTick 0 OPEN]
     (on_connection sample_request (Throw "connect failed") init).1).2 = [ClientPing 0].
Proof.
  assert (Hroom : size (activeSessions init) < 2) by (vm_compute; lia).
  destruct (setup_failure_is_reported_once
              [] sample_request "connect failed"
              [UpstreamOpen 0; ClientMessage 0 pcm_frame; PingTick 0 OPEN] Hroom)
    as (_ & _ & _ & Hnone & Hopen & _).
  split_and!; [exact Hroom | exact Hnone | | reflexivity].
  apply Hopen. intros e He.
  rewrite !elem_of_cons, elem_of_nil in He.
  destruct He as [-> | [-> | [-> | []]]]; split; discriminate.
Defined.

End AftermathExamples.
